(** * Cenizas-fastapi: document windowing, answer aggregation and session
      history of [main.py], as a shallow embedding.

    Python values are modelled as follows.
    - [str] is a sequence of Unicode code points: [list N].
    - [int] is unbounded: [Z].
    - the [sessions] dict is a finite map from session ids to sessions.
    - a confidence score (a Python float, compared only with [>] and [<])
      is the rational number it denotes: [Q].
    - the collaborators ([qa_pipeline], [uuid.uuid4], [fitz], the clock)
      are inputs of the operations that call them. *)

From Stdlib Require Import ZArith QArith List Lia Bool String Ascii.
From stdpp Require Import gmap list fin_maps.


(** ** Strings *)

Module Str.

Abbreviation char := N (only parsing).
Abbreviation str := (list N) (only parsing).

(** A Python literal, character by character. *)
Definition lit (s : string) : str :=
  map N_of_ascii (list_ascii_of_string s).

(** [len(s)] *)
Definition len (s : str) : Z := Z.of_nat (length s).

(** The characters [str.split()] and [str.strip()] treat as whitespace
    (Python's [str.isspace] on one character). *)
Definition isspace (c : char) : bool :=
  ((9 <=? c) && (c <=? 13) || (28 <=? c) && (c <=? 32)
   || (c =? 133) || (c =? 160) || (c =? 5760)
   || (8192 <=? c) && (c <=? 8202)
   || (c =? 8232) || (c =? 8233) || (c =? 8239) || (c =? 8287)
   || (c =? 12288))%N.

Definition SPACE : char := 32%N.

(** [s.split()]: the maximal runs of non-whitespace characters, in order.
    [word] is the run being scanned. *)
Fixpoint split_from (word s : str) : list str :=
  match s with
  | [] => match word with [] => [] | _ => [word] end
  | c :: s' =>
      if isspace c
      then match word with
           | [] => split_from [] s'
           | _ => word :: split_from [] s'
           end
      else split_from (word ++ [c]) s'
  end.

Definition split (s : str) : list str := split_from [] s.

(** [" ".join(ws)] *)
Fixpoint join (ws : list str) : str :=
  match ws with
  | [] => []
  | [w] => w
  | w :: ws' => w ++ SPACE :: join ws'
  end.

(** [s.strip()] *)
Fixpoint lstrip (s : str) : str :=
  match s with
  | c :: s' => if isspace c then lstrip s' else s
  | [] => []
  end.

Definition rstrip (s : str) : str := rev (lstrip (rev s)).

Definition strip (s : str) : str := rstrip (lstrip s).

(** [s.endswith(suffix)] *)
Definition endswith (s suffix : str) : bool :=
  bool_decide (drop (length s - length suffix) s = suffix).

(** Truthiness of a string: [not s] holds of the empty string only. *)
Definition is_empty (s : str) : bool :=
  match s with [] => true | _ => false end.

(** A word: a non-empty string without whitespace. *)
Definition is_word (w : str) : Prop :=
  w <> [] /\ Forall (fun c => isspace c = false) w.

End Str.

Import Str.

(** ** The windower: [chunk_text] *)

(** The three variables of the loop of [chunk_text]. *)
Record chunk_state := ChunkState {
  chunks : list str;
  current_chunk : list str;
  current_length : Z
}.

(** One iteration of [for word in words]. *)
Definition chunk_step (max_length : Z) (st : chunk_state) (word : str)
  : chunk_state :=
  let current_length := (current_length st + (len word + 1))%Z in
  if (current_length >? max_length)%Z
  then {| chunks := chunks st ++ [join (current_chunk st)];
          current_chunk := [word];
          current_length := (len word + 1)%Z |}
  else {| chunks := chunks st;
          current_chunk := current_chunk st ++ [word];
          current_length := current_length |}.

Definition chunk_loop (max_length : Z) (st : chunk_state) (words : list str)
  : chunk_state :=
  fold_left (chunk_step max_length) words st.

(** The flush after the loop: [if current_chunk: chunks.append(...)]. *)
Definition chunk_flush (st : chunk_state) : list str :=
  match current_chunk st with
  | [] => chunks st
  | _ => chunks st ++ [join (current_chunk st)]
  end.

Definition chunk_text (text : str) (max_length : Z) : list str :=
  let words := split text in
  chunk_flush
    (chunk_loop max_length
       {| chunks := []; current_chunk := []; current_length := 0 |} words).

(** The default of the parameter [max_length]. *)
Definition DEFAULT_MAX_LENGTH : Z := 512.

(** ** The session store *)

(** One entry of [conversation_history]. *)
Record QARecord := {
  rec_question : str;
  rec_answer : str;
  rec_timestamp : str
}.

(** A value of the [sessions] dict. *)
Record Session := {
  document_text : str;
  conversation_history : list QARecord
}.

(** The request model [Question]. *)
Record Question := {
  question : str;
  session_id : option str
}.

(** What [qa_pipeline] returns: a candidate answer and its confidence. *)
Record QAResult := {
  answer : str;
  score : Q
}.

(** An exception of a collaborator; [exn_str] is [str(e)]. *)
Record Exception := { exn_str : str }.

Record HTTPException := {
  status_code : Z;
  detail : str
}.

Record AskResponse := {
  resp_answer : str;
  resp_history : list QARecord
}.

Record UploadResponse := {
  up_message : str;
  up_session_id : str;
  up_history : list QARecord
}.

(** The four failures of [ask_question], named as in the specification. *)
Definition SessionNotFound : HTTPException :=
  {| status_code := 400; detail := lit "Invalid or missing session ID" |}.
Definition EmptyDocument : HTTPException :=
  {| status_code := 400; detail := lit "No document uploaded for this session" |}.
Definition EmptyQuestion : HTTPException :=
  {| status_code := 400; detail := lit "Question cannot be empty" |}.
Definition ProcessingError (e : Exception) : HTTPException :=
  {| status_code := 500;
     detail := lit "Error processing question: " ++ exn_str e |}.

(** The two failures of [upload_pdf]. *)
Definition UnsupportedFormat : HTTPException :=
  {| status_code := 400; detail := lit "Only PDF files are allowed" |}.
Definition ExtractionFailure (e : Exception) : HTTPException :=
  {| status_code := 500; detail := lit "Error processing PDF: " ++ exn_str e |}.

Definition NO_ANSWER : str := lit "No relevant answer found in the document.".

(** The literal [0.1] of the threshold test: the double nearest to 1/10. *)
Definition THRESHOLD : Q := 3602879701896397 # 36028797018963968.

Definition HISTORY_CAP : nat := 50.

(** [a > b] on scores. *)
Definition score_gt (a b : Q) : bool := negb (Qle_bool a b).

(** [a < b] on scores. *)
Definition score_lt (a b : Q) : bool := negb (Qle_bool b a).

(** [best_answer = {"answer": "", "score": 0}] *)
Definition initial_best : QAResult := {| answer := []; score := 0 |}.

(** The body of the aggregation loop, after the collaborator returned. *)
Definition keep_best (best result : QAResult) : QAResult :=
  if score_gt (score result) (score best) then result else best.

(** The candidates scanned in order, starting from a running best. *)
Definition best_of (best : QAResult) (results : list QAResult) : QAResult :=
  fold_left keep_best results best.

(** The threshold test on the running best. *)
Definition final_answer (best : QAResult) : str :=
  if score_lt (score best) THRESHOLD then NO_ANSWER else answer best.

(** [l[-n:]] for a positive [n]. *)
Definition last_n {A} (n : nat) (l : list A) : list A :=
  drop (length l - n) l.

(** [sessions[sid]["conversation_history"] = h], and the in-place
    [append], on an entry that exists. *)
Definition set_history (h : list QARecord) (s : Session) : Session :=
  {| document_text := document_text s; conversation_history := h |}.

(** [upload_pdf]. [uuid] is [str(uuid.uuid4())]; [pages] is what reading the
    upload and [page.get_text()] over its pages give, or the exception one
    of them raised. *)
Definition upload_pdf (sessions : gmap str Session) (filename uuid : str)
    (pages : Exception + list str)
  : (HTTPException + UploadResponse) * gmap str Session :=
  if negb (endswith filename (lit ".pdf"))
  then (inl UnsupportedFormat, sessions)
  else
    match pages with
    | inl e => (inl (ExtractionFailure e), sessions)
    | inr pages =>
        let document_text := fold_left (fun text page => text ++ page) pages [] in
        (inr {| up_message := lit "PDF uploaded and processed successfully";
                up_session_id := uuid;
                up_history := [] |},
         <[uuid := {| document_text := document_text;
                      conversation_history := [] |}]> sessions)
    end.

(** The contract of [str(uuid.uuid4())]: 36 characters. *)
Definition uuid_string (u : str) : Prop := length u = 36%nat.

Section Ask.

(** The extraction collaborator: [qa_pipeline(question=q, context=c)]
    returns a result or raises. *)
Variable qa_pipeline : str -> str -> Exception + QAResult.

(** [for chunk in chunks: ...] with the running best; a raise of the
    collaborator leaves the loop. *)
Fixpoint scan_chunks (q : str) (best : QAResult) (chunks : list str)
  : Exception + QAResult :=
  match chunks with
  | [] => inr best
  | chunk :: rest =>
      match qa_pipeline q chunk with
      | inl e => inl e
      | inr result => scan_chunks q (keep_best best result) rest
      end
  end.

(** The [try] block of [ask_question], for a session [sess] stored under
    [sid]. The store is threaded through: [append] changes the list the
    store holds, the slice makes a new list, and the last assignment puts
    it in the store. [now] is [datetime.now().isoformat()]. *)
Definition ask_try (sessions : gmap str Session) (sid : str) (sess : Session)
    (q now : str) : (Exception + AskResponse) * gmap str Session :=
  let chunks := chunk_text (document_text sess) DEFAULT_MAX_LENGTH in
  match scan_chunks q initial_best chunks with
  | inl e => (inl e, sessions)
  | inr best_answer =>
      let answer := final_answer best_answer in
      let record := {| rec_question := q; rec_answer := answer;
                       rec_timestamp := now |} in
      let conversation_history := conversation_history sess ++ [record] in
      let sessions := alter (set_history conversation_history) sid sessions in
      let conversation_history :=
        if (HISTORY_CAP <? length conversation_history)%nat
        then last_n HISTORY_CAP conversation_history
        else conversation_history in
      let sessions := alter (set_history conversation_history) sid sessions in
      (inr {| resp_answer := answer; resp_history := conversation_history |},
       sessions)
  end.

(** [ask_question]: the response or the HTTP error, and the store after. *)
Definition ask_question (sessions : gmap str Session) (q : Question)
    (now : str) : (HTTPException + AskResponse) * gmap str Session :=
  match session_id q with
  | None => (inl SessionNotFound, sessions)
  | Some sid =>
      if is_empty sid then (inl SessionNotFound, sessions)
      else
        match sessions !! sid with
        | None => (inl SessionNotFound, sessions)
        | Some sess =>
            if is_empty (document_text sess)
            then (inl EmptyDocument, sessions)
            else if is_empty (strip (question q))
            then (inl EmptyQuestion, sessions)
            else
              match ask_try sessions sid sess (question q) now with
              | (inl e, sessions) => (inl (ProcessingError e), sessions)
              | (inr response, sessions) => (inr response, sessions)
              end
        end
  end.

(** The stores the service can be in: it starts empty, and changes by
    [upload_pdf] and [ask_question] only. *)
Inductive reachable : gmap str Session -> Prop :=
  | reachable_start : reachable ∅
  | reachable_upload sessions filename uuid pages :
      reachable sessions -> uuid_string uuid ->
      reachable (upload_pdf sessions filename uuid pages).2
  | reachable_ask sessions q now :
      reachable sessions ->
      reachable (ask_question sessions q now).2.

(** Asking a list of (question, timestamp) pairs of one session, one after
    the other; the responses in order, and the store after the last. *)
Fixpoint ask_all (sessions : gmap str Session) (sid : str)
    (asks : list (str * str))
  : list (HTTPException + AskResponse) * gmap str Session :=
  match asks with
  | [] => ([], sessions)
  | (q, now) :: rest =>
      let '(r, sessions) :=
        ask_question sessions {| question := q; session_id := Some sid |} now in
      let '(rs, sessions) := ask_all sessions sid rest in
      (r :: rs, sessions)
  end.

End Ask.

(** ** Predicates and examples of the properties *)

(** The length the loop counts for a list of words: each word and one
    separator. *)
Definition weight (ws : list str) : Z :=
  foldr (fun w n => (len w + 1 + n)%Z) 0%Z ws.

(** [s.split(" ")]: the pieces between single spaces, empty ones kept.
    It is not called by the program; it is the other way to read "the
    separator" of the windows, which are joined with single spaces. *)
Fixpoint split_space_from (word s : str) : list str :=
  match s with
  | [] => [word]
  | c :: s' =>
      if (c =? SPACE)%N
      then word :: split_space_from [] s'
      else split_space_from (word ++ [c]) s'
  end.

Definition split_space (s : str) : list str := split_space_from [] s.

(** A window is within the budget. *)
Definition fits (max_length : Z) (window : str) : Prop :=
  (len window <= max_length)%Z.

(** What a closed window can be: empty, one whole word of the text, or
    strictly within the budget. *)
Definition window_ok (all : list str) (m : Z) (c : str) : Prop :=
  c = [] \/ c ∈ all \/ (len c < m)%Z.

Definition chunk_inv (all : list str) (m : Z) (st : chunk_state) : Prop :=
  current_length st = weight (current_chunk st) /\
  ((2 <= length (current_chunk st))%nat -> (current_length st <= m)%Z) /\
  current_chunk st ⊆ all /\
  Forall (window_ok all m) (chunks st).

(** The exception C3 allows: the window is some words within the budget
    and then one more whole word. *)
Definition over_by_trailing_word (max_length : Z) (window : str) : Prop :=
  exists ws w, is_word w /\ window = join (ws ++ [w]) /\ fits max_length (join ws).

(** C3 as it is stated, for one text and one budget. *)
Definition budget_claim (text : str) (max_length : Z) : Prop :=
  forall c, c ∈ chunk_text text max_length ->
    fits max_length c \/ over_by_trailing_word max_length c.

(** [b], at position [i] of [cands], is the first candidate of the
    greatest confidence: none has more, and none before it has as much. *)
Definition first_max (cands : list QAResult) (i : nat) (b : QAResult) : Prop :=
  cands !! i = Some b /\
  (forall j r, cands !! j = Some r -> (score r <= score b)%Q) /\
  (forall j r, (j < i)%nat -> cands !! j = Some r -> (score r < score b)%Q).

(** The record [ask_question] appends for an answer. *)
Definition record_of (q now answer : str) : QARecord :=
  {| rec_question := q; rec_answer := answer; rec_timestamp := now |}.

(** The records of a run of asks, from what was asked and what was
    answered. *)
Definition records_of (asks : list (str * str)) (responses : list AskResponse)
  : list QARecord :=
  zip_with (fun a r => record_of a.1 a.2 (resp_answer r)) asks responses.

Definition example_uuid : str := lit "123e4567-e89b-42d3-a456-426614174000".

Definition example_document : str :=
  lit "Paris is the capital of France. It has a population of over two million.".

Definition example_question : str := lit "What is the capital of France?".

Definition example_now : str := lit "2024-05-01T12:00:00.000000".

(** The stub of the scenario: "Paris" with confidence 0.95 on a window
    that starts with "Paris", the empty answer with confidence 0 on any
    other. *)
Definition paris_qa (q chunk : str) : Exception + QAResult :=
  if bool_decide (take 5 chunk = lit "Paris")
  then inr {| answer := lit "Paris"; score := 95 # 100 |}
  else inr {| answer := []; score := 0 |}.

(** A collaborator that returns a candidate of confidence 0 on every
    window. *)
Definition zero_qa (q chunk : str) : Exception + QAResult :=
  inr {| answer := lit "Rome"; score := 0 |}.

(** A collaborator that raises on every call. *)
Definition failing_qa (q chunk : str) : Exception + QAResult :=
  inl {| exn_str := lit "model failure" |}.

Definition example_session : Session :=
  {| document_text := example_document; conversation_history := [] |}.

(** The store after the upload of the document to an empty store. *)
Definition example_store : gmap str Session :=
  (upload_pdf ∅ (lit "france.pdf") example_uuid (inr [example_document])).2.

(** Fifty-five questions of the example session, each with its time. *)
Definition example_asks : list (str * str) :=
  map (fun c => (lit "question " ++ [c], lit "time " ++ [c]))
    (map N.of_nat (seq 65 55)).

(** The responses among the results of a run of asks. *)
Definition ok_responses (rs : list (HTTPException + AskResponse))
  : list AskResponse :=
  omap (fun r => match r with inr x => Some x | inl _ => None end) rs.

Definition example_responses : list AskResponse :=
  ok_responses (ask_all paris_qa example_store example_uuid example_asks).1.

(** A store whose session holds a document of whitespace only. *)
Definition blank_document : str := lit "   " ++ [10; 9; 160]%N.

Definition blank_session : Session :=
  {| document_text := blank_document; conversation_history := [] |}.

Definition blank_store : gmap str Session :=
  (upload_pdf ∅ (lit "blank.pdf") example_uuid (inr [lit "   "; [10; 9; 160]%N])).2.

(** The grouping of the loop of [chunk_text] read on the words alone:
    [cur] is the open window, and the groups are the windows before they
    are joined. The last group is the open window at the end. *)
Fixpoint pack (m : Z) (cur words : list str) : list (list str) :=
  match words with
  | [] => [cur]
  | w :: ws =>
      if (weight cur + (len w + 1) >? m)%Z
      then cur :: pack m [w] ws
      else pack m (cur ++ [w]) ws
  end.

(** The records a run of asks leaves: one for each ask that was answered,
    none for an ask that failed. *)
Definition answered_records (asks : list (str * str))
    (results : list (HTTPException + AskResponse)) : list QARecord :=
  concat
    (zip_with
       (fun a r =>
          match r with
          | inr response =>
              [{| rec_question := a.1; rec_answer := resp_answer response;
                  rec_timestamp := a.2 |}]
          | inl _ => []
          end) asks results).

(** A page of text that cannot run into the next one: it is empty or ends
    with whitespace. *)
Definition page_closed (page : str) : Prop :=
  page = [] \/ exists p c, page = p ++ [c] /\ isspace c = true.

(** A collaborator that raises on an empty context, as the
    question-answering pipeline does, and answers like [paris_qa] on any
    other. *)
Definition strict_qa (q chunk : str) : Exception + QAResult :=
  if is_empty chunk
  then inl {| exn_str := lit "context cannot be empty" |}
  else paris_qa q chunk.

(** A document whose first word has 512 characters. *)
Definition long_word_document : str := replicate 512 97%N ++ lit " is long".

Definition long_word_store : gmap str Session :=
  (upload_pdf ∅ (lit "long.pdf") example_uuid (inr [long_word_document])).2.

(** * Properties *)

(** ** Splitting and joining *)

Lemma split_from_word (w acc s : str) :
  Forall (fun c => isspace c = false) w ->
  split_from acc (w ++ s) = split_from (acc ++ w) s.
Proof.
  intros Hw. revert acc.
  induction Hw as [|c w Hc _ IH]; intros acc; simpl.
  - by rewrite app_nil_r.
  - rewrite Hc, IH. by rewrite <- app_assoc.
Qed.

Lemma split_from_space (acc s : str) :
  acc <> [] -> split_from acc (SPACE :: s) = acc :: split_from [] s.
Proof. intros Hacc. simpl. by destruct acc. Qed.

Lemma split_word (w : str) : is_word w -> split w = [w].
Proof.
  intros [Hne Hw]. unfold split.
  rewrite <- (app_nil_r w) at 1.
  rewrite split_from_word by done. simpl. by destruct w.
Qed.

(** The words of [split] are words. *)
Lemma split_from_is_word (s acc : str) :
  Forall (fun c => isspace c = false) acc ->
  Forall is_word (split_from acc s).
Proof.
  revert acc. induction s as [|c s IH]; intros acc Hacc; simpl.
  - destruct acc; constructor; [|constructor]. by split.
  - destruct (isspace c) eqn:Hc.
    + destruct acc as [|a acc]; [by apply IH|].
      constructor; [by split|]. by apply IH.
    + apply IH. apply Forall_app. split; [done|]. by constructor.
Qed.

Lemma split_is_word (s : str) : Forall is_word (split s).
Proof. by apply split_from_is_word. Qed.

(** [split] undoes [join] on words. *)
Lemma split_join (ws : list str) : Forall is_word ws -> split (join ws) = ws.
Proof.
  induction 1 as [|w ws Hw Hws IH]; [done|].
  destruct ws as [|w' ws]; [by apply split_word|].
  change (join (w :: w' :: ws)) with (w ++ SPACE :: join (w' :: ws)).
  unfold split in *. destruct Hw as [Hne Hw].
  rewrite split_from_word by done. simpl app.
  rewrite split_from_space by done. by rewrite IH.
Qed.

Lemma is_empty_false (s : str) : is_empty s = false <-> s <> [].
Proof. by destruct s. Qed.

Lemma split_from_app_space (a b acc : str) :
  split_from acc (a ++ SPACE :: b) = split_from acc a ++ split b.
Proof.
  revert acc. induction a as [|c a IH]; intros acc.
  - simpl. by destruct acc.
  - simpl. destruct (isspace c); [|apply IH].
    destruct acc; by rewrite IH.
Qed.

(** Splitting the windows joined with spaces is splitting each. *)
Lemma split_join_windows (ws : list str) :
  split (join ws) = flat_map split ws.
Proof.
  induction ws as [|w ws IH]; [done|].
  destruct ws as [|w' ws]; [simpl; by rewrite app_nil_r|].
  change (join (w :: w' :: ws)) with (w ++ SPACE :: join (w' :: ws)).
  unfold split at 1. rewrite split_from_app_space, IH. done.
Qed.

Lemma split_space_from_word (w acc s : str) :
  Forall (fun c => isspace c = false) w ->
  split_space_from acc (w ++ s) = split_space_from (acc ++ w) s.
Proof.
  intros Hw. revert acc.
  induction Hw as [|c w Hc _ IH]; intros acc; simpl.
  - by rewrite app_nil_r.
  - destruct (N.eqb_spec c SPACE) as [->|_]; [done|].
    rewrite IH. by rewrite <- app_assoc.
Qed.

(** [split(" ")] undoes [join] on one word or more. *)
Lemma split_space_join (ws : list str) :
  Forall is_word ws -> ws <> [] -> split_space (join ws) = ws.
Proof.
  induction 1 as [|w ws [_ Hw] Hws IH]; [done|]. intros _.
  unfold split_space in *. destruct ws as [|w' ws].
  - simpl. rewrite <- (app_nil_r w) at 1.
    by rewrite split_space_from_word.
  - change (join (w :: w' :: ws)) with (w ++ SPACE :: join (w' :: ws)).
    rewrite split_space_from_word by done.
    change (split_space_from ([] ++ w) (SPACE :: join (w' :: ws)))
      with (w :: split_space_from [] (join (w' :: ws))).
    by rewrite IH.
Qed.

(** The text has no word exactly when [strip] leaves nothing. *)
Lemma lstrip_nil (s : str) : lstrip s = [] <-> forallb isspace s = true.
Proof.
  induction s as [|c s IH]; simpl; [done|].
  destruct (isspace c); simpl; [done|]. split; discriminate.
Qed.

Lemma strip_nil (s : str) : strip s = [] <-> forallb isspace s = true.
Proof.
  unfold strip, rstrip. split.
  - intros H. apply (f_equal (@rev N)) in H. rewrite rev_involutive in H.
    simpl in H. apply lstrip_nil in H.
    destruct (lstrip s) eqn:E; [by apply lstrip_nil|].
    rewrite forallb_forall in H.
    assert (Hn : isspace n = true).
    { apply H. rewrite <- in_rev. by left. }
    clear H. exfalso. revert E Hn. clear. induction s as [|c s IH]; simpl; [done|].
    destruct (isspace c) eqn:Hc; [done|]. intros [= -> _]. congruence.
  - intros H. apply lstrip_nil in H. by rewrite H.
Qed.

Lemma split_from_blank (s : str) :
  forallb isspace s = true -> split_from [] s = [].
Proof.
  induction s as [|c s IH]; simpl; [done|].
  intros [-> H]%andb_true_iff. by apply IH.
Qed.

Lemma len_join_cons (w : str) (ws : list str) :
  ws <> [] -> len (join (w :: ws)) = (len w + 1 + len (join ws))%Z.
Proof.
  destruct ws as [|w' ws]; [done|]. intros _.
  change (join (w :: w' :: ws)) with (w ++ SPACE :: join (w' :: ws)).
  unfold len. rewrite length_app. simpl length. lia.
Qed.

(** ** The windower *)

Lemma chunk_loop_cons (m : Z) (st : chunk_state) (w : str) (ws : list str) :
  chunk_loop m st (w :: ws) = chunk_loop m (chunk_step m st w) ws.
Proof. done. Qed.

(** The words of the closed windows, then the open window, are the words
    consumed so far. *)
Lemma chunk_loop_words (m : Z) (words : list str) (st : chunk_state) :
  Forall is_word words ->
  Forall is_word (current_chunk st) ->
  Forall is_word (current_chunk (chunk_loop m st words)) /\
  flat_map split (chunks (chunk_loop m st words))
    ++ current_chunk (chunk_loop m st words)
  = flat_map split (chunks st) ++ current_chunk st ++ words.
Proof.
  intros Hwords. revert st.
  induction Hwords as [|w words Hw _ IH]; intros st Hcur.
  - simpl. by rewrite app_nil_r.
  - rewrite chunk_loop_cons.
    unfold chunk_step.
    destruct (current_length st + (len w + 1) >? m)%Z.
    + edestruct IH as [IH1 IH2]; [|split; [exact IH1|rewrite IH2]].
      * simpl. by constructor.
      * simpl. rewrite flat_map_app. simpl. rewrite app_nil_r.
        rewrite split_join by done. by rewrite <- app_assoc.
    + edestruct IH as [IH1 IH2]; [|split; [exact IH1|rewrite IH2]].
      * simpl. apply Forall_app. split; [done|]. by constructor.
      * simpl. by rewrite <- app_assoc.
Qed.

Lemma chunk_flush_words (st : chunk_state) :
  Forall is_word (current_chunk st) ->
  flat_map split (chunk_flush st)
  = flat_map split (chunks st) ++ current_chunk st.
Proof.
  intros Hcur. unfold chunk_flush.
  destruct (current_chunk st) as [|w ws] eqn:E.
  - by rewrite app_nil_r.
  - rewrite flat_map_app. cbn [flat_map]. rewrite app_nil_r.
    by rewrite split_join.
Qed.

(** C1: for every text (empty or not) and every [max_length], splitting
    the windows of [chunk_text] with [split], the split the windower
    itself took the words with, and putting the results one after the
    other gives the words of the text: none lost, none twice, in order.
    So does splitting the windows joined with the separator. *)
Theorem chunk_text_preserves_words (text : str) (max_length : Z) :
  flat_map split (chunk_text text max_length) = split text /\
  split (join (chunk_text text max_length)) = split text.
Proof.
  assert (flat_map split (chunk_text text max_length) = split text) as H.
  { unfold chunk_text.
    pose proof (split_is_word text) as Hwords.
    destruct (chunk_loop_words max_length (split text)
                {| chunks := []; current_chunk := []; current_length := 0 |}
                Hwords) as [Hcur Heq]; [constructor|].
    rewrite chunk_flush_words by done. by rewrite Heq. }
  split; [done|]. by rewrite split_join_windows.
Qed.

Lemma weight_app (ws ws' : list str) :
  weight (ws ++ ws') = (weight ws + weight ws')%Z.
Proof. induction ws as [|w ws IH]; simpl; lia. Qed.

Lemma len_join (ws : list str) :
  ws <> [] -> len (join ws) = (weight ws - 1)%Z.
Proof.
  induction ws as [|w ws IH]; [done|]. intros _.
  destruct ws as [|w' ws]; [simpl; lia|].
  rewrite len_join_cons by done. rewrite IH by done.
  change (weight (w :: w' :: ws)) with (len w + 1 + weight (w' :: ws))%Z. lia.
Qed.

Lemma join_window_ok (all : list str) (m : Z) (cur : list str) :
  cur ⊆ all -> ((2 <= length cur)%nat -> (weight cur <= m)%Z) ->
  window_ok all m (join cur).
Proof.
  intros Hin Hlen. destruct cur as [|w1 [|w2 cur]].
  - by left.
  - right; left. apply Hin. by left.
  - right; right. rewrite len_join by done.
    assert (weight (w1 :: w2 :: cur) <= m)%Z by (apply Hlen; simpl; lia). lia.
Qed.

Lemma chunk_step_inv (all : list str) (m : Z) (st : chunk_state) (w : str) :
  w ∈ all -> chunk_inv all m st -> chunk_inv all m (chunk_step m st w).
Proof.
  intros Hw (Hlen & Hfit & Hin & Hok). unfold chunk_step.
  destruct (current_length st + (len w + 1) >? m)%Z eqn:Hgt.
  - repeat split; simpl.
    + lia.
    + lia.
    + intros x Hx%list_elem_of_singleton. by subst.
    + apply Forall_app. split; [done|]. constructor; [|done].
      apply join_window_ok; [done|]. rewrite <- Hlen. done.
  - repeat split; simpl; [| | |done].
    + rewrite weight_app, Hlen. simpl. lia.
    + lia.
    + intros x [Hx|Hx%list_elem_of_singleton]%elem_of_app; [by apply Hin|by subst].
Qed.

Lemma chunk_loop_inv (all : list str) (m : Z) (words : list str)
    (st : chunk_state) :
  words ⊆ all -> chunk_inv all m st -> chunk_inv all m (chunk_loop m st words).
Proof.
  revert st. induction words as [|w words IH]; intros st Hin Hinv; [done|].
  rewrite chunk_loop_cons. apply IH.
  - intros x Hx. apply Hin. by right.
  - apply chunk_step_inv; [|done]. apply Hin. by left.
Qed.

Lemma chunk_text_window_ok (text : str) (m : Z) :
  Forall (window_ok (split text) m) (chunk_text text m).
Proof.
  unfold chunk_text.
  destruct (chunk_loop_inv (split text) m (split text)
              {| chunks := []; current_chunk := []; current_length := 0 |})
    as (Hlen & Hfit & Hin & Hok); [done| |].
  { repeat split; simpl; [lia|apply list_subseteq_nil|constructor]. }
  unfold chunk_flush.
  destruct (current_chunk _) as [|w ws] eqn:E; [done|].
  apply Forall_app. split; [done|]. constructor; [|done].
  apply join_window_ok; [done|]. by rewrite <- Hlen.
Qed.

(** C3, amended: for every text and every [max_length >= 0], every window
    of [chunk_text] is within the budget, or exceeds it only by a single
    trailing word added whole; such a window is then that one word of the
    text, alone. *)
Theorem chunk_text_budget (text : str) (max_length : Z) (c : str) :
  (0 <= max_length)%Z ->
  c ∈ chunk_text text max_length ->
  fits max_length c \/
  (c ∈ split text /\ over_by_trailing_word max_length c).
Proof.
  intros Hm Hc.
  pose proof (chunk_text_window_ok text max_length) as Hok.
  rewrite Forall_forall in Hok. destruct (Hok c Hc) as [->|[Hw|Hlt]].
  - left. unfold fits, len. simpl. lia.
  - right. split; [done|]. exists [], c. repeat split.
    + pose proof (split_is_word text) as H. rewrite Forall_forall in H.
      by apply H.
    + pose proof (split_is_word text) as H. rewrite Forall_forall in H.
      by apply H.
    + unfold fits, len. simpl. lia.
  - left. unfold fits. lia.
Qed.

Lemma chunk_text_budget_witness :
  (0 <= 10)%Z /\
  lit "supercalifragilistic" ∈ chunk_text (lit "a supercalifragilistic b") 10 /\
  (fits 10 (lit "supercalifragilistic") \/
   (lit "supercalifragilistic" ∈ split (lit "a supercalifragilistic b") /\
    over_by_trailing_word 10 (lit "supercalifragilistic"))).
Proof.
  split; [lia|]. split.
  - vm_compute. apply list_elem_of_In. simpl. tauto.
  - apply (chunk_text_budget (lit "a supercalifragilistic b") 10);
      [lia|]. vm_compute. apply list_elem_of_In. simpl. tauto.
Defined.

(** C3 as stated fails at a negative budget: [chunk_text("a", -1)] is
    [["", "a"]], and its empty window is over the budget without holding
    any word. *)
Lemma chunk_text_budget_negative :
  chunk_text (lit "a") (-1) = [[]; lit "a"] /\
  ~ budget_claim (lit "a") (-1).
Proof.
  split; [reflexivity|].
  intros H. destruct (H []) as [Hfit|(ws & w & _ & _ & Hfit)].
  - vm_compute. left.
  - unfold fits, len in Hfit. simpl in Hfit. lia.
  - unfold fits, len in Hfit. lia.
Qed.

(** C8: the empty text gives no window; a text of one word longer than
    [max_length] gives that word as a window of its own, whole. The window
    before it is the empty one that the loop closes on its first word. *)
Theorem chunk_text_edge_cases (max_length : Z) :
  chunk_text [] max_length = [] /\
  forall text w : str,
    split text = [w] -> (max_length < len w)%Z ->
    chunk_text text max_length = [[]; w] /\ w ∈ chunk_text text max_length.
Proof.
  split; [done|]. intros text w Hsplit Hlen.
  assert (chunk_text text max_length = [[]; w]) as ->.
  { unfold chunk_text. rewrite Hsplit. simpl. unfold chunk_step. simpl.
    destruct (0 + (len w + 1) >? max_length)%Z eqn:E; [done|lia]. }
  split; [done|]. apply list_elem_of_In. simpl. tauto.
Qed.

Lemma chunk_text_edge_cases_witness :
  chunk_text (lit " incomprehensibilities ") 5
    = [[]; lit "incomprehensibilities"] /\
  lit "incomprehensibilities" ∈ chunk_text (lit " incomprehensibilities ") 5.
Proof.
  apply (proj2 (chunk_text_edge_cases 5)); [reflexivity|].
  vm_compute. reflexivity.
Defined.

(** C2 at [text = "hello"], [max_length = 3]: the text has one word, and
    [chunk_text] gives two windows, the first of them empty. *)
Theorem chunk_text_hello_3 :
  split (lit "hello") = [lit "hello"] /\
  chunk_text (lit "hello") 3 = [[]; lit "hello"] /\
  [] ∈ chunk_text (lit "hello") 3 /\
  (length (split (lit "hello")) < length (chunk_text (lit "hello") 3))%nat.
Proof.
  repeat split; [apply list_elem_of_In; simpl; tauto|vm_compute; lia].
Qed.

(** *** What holds of the number of windows and of their emptiness *)

Lemma join_nonempty (ws : list str) :
  Forall is_word ws -> ws <> [] -> join ws <> [].
Proof.
  intros Hws Hne. destruct Hws as [|w ws [Hw _] _]; [done|].
  destruct ws; simpl; [done|]. by destruct w.
Qed.

(** From a state whose open window holds a word, the loop closes only
    non-empty windows, at most one for each word it reads. *)
Lemma chunk_loop_nonempty (m : Z) (words : list str) (st : chunk_state) :
  Forall is_word words ->
  Forall is_word (current_chunk st) -> current_chunk st <> [] ->
  exists new,
    chunks (chunk_loop m st words) = chunks st ++ new /\
    Forall (fun c => c <> []) new /\
    (length new <= length words)%nat /\
    Forall is_word (current_chunk (chunk_loop m st words)) /\
    current_chunk (chunk_loop m st words) <> [].
Proof.
  intros Hwords. revert st.
  induction Hwords as [|w words Hw _ IH]; intros st Hcur Hne.
  - exists []. simpl. by rewrite app_nil_r.
  - rewrite chunk_loop_cons. unfold chunk_step.
    destruct (current_length st + (len w + 1) >? m)%Z.
    + edestruct IH as (new & -> & Hnew & Hlen & Hcur' & Hne').
      { simpl. by constructor. }
      { done. }
      exists (join (current_chunk st) :: new). simpl.
      rewrite <- app_assoc. split_and!; [done| |simpl; lia|done|done].
      constructor; [|done]. by apply join_nonempty.
    + edestruct IH as (new & -> & Hnew & Hlen & Hcur' & Hne').
      { simpl. apply Forall_app. split; [done|]. by constructor. }
      { simpl. by destruct (current_chunk st). }
      exists new. simpl. split_and!; [done|done|lia|done|done].
Qed.

Lemma chunk_run_nonempty (m : Z) (words : list str) (st : chunk_state) :
  Forall is_word words ->
  Forall is_word (current_chunk st) -> current_chunk st <> [] ->
  exists new,
    chunk_flush (chunk_loop m st words) = chunks st ++ new /\
    Forall (fun c => c <> []) new /\
    (length new <= length words + 1)%nat.
Proof.
  intros Hwords Hcur Hne.
  destruct (chunk_loop_nonempty m words st Hwords Hcur Hne)
    as (new & Hch & Hnew & Hlen & Hcur' & Hne').
  unfold chunk_flush.
  destruct (current_chunk (chunk_loop m st words)) as [|x xs] eqn:E; [done|].
  exists (new ++ [join (x :: xs)]). rewrite Hch, app_assoc. split_and!.
  - done.
  - apply Forall_app. split; [done|].
    constructor; [|done]. by apply join_nonempty.
  - rewrite length_app. simpl. lia.
Qed.

(** What [chunk_text] does with the first word. *)
Lemma chunk_text_cons (text w : str) (rest : list str) (m : Z) :
  split text = w :: rest ->
  chunk_text text m =
    chunk_flush
      (chunk_loop m
         (if (len w + 1 >? m)%Z
          then {| chunks := [[]]; current_chunk := [w];
                  current_length := (len w + 1)%Z |}
          else {| chunks := []; current_chunk := [w];
                  current_length := (len w + 1)%Z |}) rest).
Proof.
  intros H. unfold chunk_text. rewrite H, chunk_loop_cons.
  unfold chunk_step. simpl current_length. simpl chunks. simpl current_chunk.
  rewrite Z.add_0_l. by destruct (len w + 1 >? m)%Z.
Qed.

(** When the first word of the text fits the budget with its separator,
    every window is non-empty and there are no more windows than words,
    as C2 states. *)
Theorem chunk_text_first_word_fits (text w : str) (rest : list str)
    (max_length : Z) :
  split text = w :: rest -> (len w + 1 <= max_length)%Z ->
  Forall (fun c => c <> []) (chunk_text text max_length) /\
  (length (chunk_text text max_length) <= length (split text))%nat.
Proof.
  intros Hsplit Hfit.
  pose proof (split_is_word text) as Hwords. rewrite Hsplit in Hwords.
  apply Forall_cons in Hwords as [Hw Hrest].
  rewrite (chunk_text_cons text w rest) by done. rewrite Hsplit.
  destruct (len w + 1 >? max_length)%Z eqn:E; [lia|].
  edestruct (chunk_run_nonempty max_length rest) as (new & -> & Hnew & Hlen);
    [done| | |split; [exact Hnew|simpl in *; lia]].
  - simpl. by constructor.
  - done.
Qed.

Lemma chunk_text_first_word_fits_witness :
  Forall (fun c => c <> []) (chunk_text (lit "the quick brown fox") 10) /\
  (length (chunk_text (lit "the quick brown fox") 10)
   <= length (split (lit "the quick brown fox")))%nat.
Proof.
  apply (chunk_text_first_word_fits _ (lit "the")
           [lit "quick"; lit "brown"; lit "fox"]); [reflexivity|].
  vm_compute. discriminate.
Defined.

(** Whatever the budget, there is at most one window more than there are
    words, and only the first window can be empty: it is, exactly when the
    first word does not fit the budget with its separator. *)
Theorem chunk_text_count (text : str) (max_length : Z) :
  (length (chunk_text text max_length) <= length (split text) + 1)%nat /\
  Forall (fun c => c <> []) (tail (chunk_text text max_length)) /\
  forall (w : str) (rest : list str), split text = w :: rest ->
    (head (chunk_text text max_length) = Some [] <->
     (max_length < len w + 1)%Z).
Proof.
  pose proof (split_is_word text) as Hwords.
  destruct (split text) as [|w rest] eqn:Hsplit.
  { unfold chunk_text. rewrite Hsplit. simpl. split_and!; [lia|done|done]. }
  apply Forall_cons in Hwords as [Hw Hrest].
  rewrite (chunk_text_cons text w rest) by done.
  destruct (len w + 1 >? max_length)%Z eqn:E.
  - edestruct (chunk_run_nonempty max_length rest) as (new & -> & Hnew & Hlen);
      [done| | |]; [by constructor|done|].
    simpl in *. split_and!; [lia|done|].
    intros w' rest' [= <- <-]. split; [lia|done].
  - edestruct (chunk_run_nonempty max_length rest) as (new & -> & Hnew & Hlen);
      [done| | |]; [by constructor|done|].
    simpl in *. split_and!; [lia| |].
    + destruct new; [done|]. by apply Forall_cons in Hnew as [_ ?].
    + intros w' rest' [= <- <-]. split; [|lia].
      destruct new as [|c new]; [done|].
      apply Forall_cons in Hnew as [? _]. simpl. congruence.
Qed.

(** *** The windows as slices of the words *)

Lemma chunk_loop_groups (m : Z) (words : list str) :
  forall (st : chunk_state) (gs : list (list str)),
  chunks st = map join gs ->
  exists gs',
    chunks (chunk_loop m st words) = map join (gs ++ gs') /\
    concat gs' ++ current_chunk (chunk_loop m st words)
      = current_chunk st ++ words /\
    (current_chunk st <> [] ->
     Forall (fun g => g <> []) gs' /\ current_chunk (chunk_loop m st words) <> []).
Proof.
  induction words as [|w words IH]; intros st gs Hgs.
  - exists []. simpl. rewrite !app_nil_r. done.
  - rewrite chunk_loop_cons. unfold chunk_step.
    destruct (current_length st + (len w + 1) >? m)%Z.
    + destruct (IH {| chunks := chunks st ++ [join (current_chunk st)];
                      current_chunk := [w];
                      current_length := (len w + 1)%Z |}
                  (gs ++ [current_chunk st])) as (gs' & Hch & Hcat & Hne).
      { simpl. by rewrite Hgs, map_app. }
      exists (current_chunk st :: gs'). split_and!.
      * rewrite Hch. by rewrite <- app_assoc.
      * simpl. rewrite <- app_assoc, Hcat. done.
      * intros Hcur. destruct Hne as [Hne1 Hne2]; [done|].
        split; [by constructor|done].
    + destruct (IH {| chunks := chunks st;
                      current_chunk := current_chunk st ++ [w];
                      current_length := (current_length st + (len w + 1))%Z |}
                  gs) as (gs' & Hch & Hcat & Hne).
      { simpl. exact Hgs. }
      exists gs'. split_and!.
      * done.
      * rewrite Hcat. simpl. by rewrite <- app_assoc.
      * intros _. apply Hne. simpl. by destruct (current_chunk st).
Qed.

Lemma chunk_text_slices (text : str) (max_length : Z) :
  exists groups : list (list str),
    chunk_text text max_length = map join groups /\
    concat groups = split text /\
    Forall (fun g => g <> []) (tail groups) /\
    forall (w : str) (rest : list str), split text = w :: rest ->
      (len w + 1 <= max_length)%Z -> Forall (fun g => g <> []) groups.
Proof.
  destruct (split text) as [|w rest] eqn:Hsplit.
  { exists []. unfold chunk_text. rewrite Hsplit. by split_and!. }
  rewrite (chunk_text_cons text w rest) by done.
  destruct (len w + 1 >? max_length)%Z eqn:E.
  - destruct (chunk_loop_groups max_length rest
                {| chunks := [[]]; current_chunk := [w];
                   current_length := (len w + 1)%Z |} [[]])
      as (gs' & Hch & Hcat & Hne); [simpl; reflexivity|].
    simpl in Hcat, Hne. destruct Hne as [Hne1 Hne2]; [done|].
    unfold chunk_flush. destruct (current_chunk _) as [|x xs] eqn:Ecur; [done|].
    exists ([] :: gs' ++ [x :: xs]). rewrite Hch. split_and!.
    + simpl. by rewrite map_app.
    + simpl. rewrite concat_app. simpl. by rewrite app_nil_r.
    + simpl. apply Forall_app. split; [done|]. by constructor.
    + intros w' rest' [= <- <-]. lia.
  - destruct (chunk_loop_groups max_length rest
                {| chunks := []; current_chunk := [w];
                   current_length := (len w + 1)%Z |} [])
      as (gs' & Hch & Hcat & Hne); [simpl; reflexivity|].
    simpl in Hcat, Hne. destruct Hne as [Hne1 Hne2]; [done|].
    unfold chunk_flush. destruct (current_chunk _) as [|x xs] eqn:Ecur; [done|].
    exists (gs' ++ [x :: xs]). rewrite Hch.
    assert (Forall (fun g : list str => g <> []) (gs' ++ [x :: xs])) as Hall.
    { apply Forall_app. split; [done|]. by constructor. }
    split_and!.
    + simpl. by rewrite map_app.
    + rewrite concat_app. simpl. by rewrite app_nil_r.
    + destruct (gs' ++ [x :: xs]); [done|]. by apply Forall_cons in Hall as [_ ?].
    + done.
Qed.

(** The windows are slices of the words of the text, one after the other
    and in order, each joined with single spaces. Only the first slice can
    be empty, and it is not when the first word fits the budget with its
    separator. *)
Theorem chunk_text_groups (text : str) (max_length : Z) :
  exists groups : list (list str),
    chunk_text text max_length = map join groups /\
    concat groups = split text /\
    Forall (fun g => g <> []) (tail groups) /\
    forall (w : str) (rest : list str), split text = w :: rest ->
      (len w + 1 <= max_length)%Z -> Forall (fun g => g <> []) groups.
Proof. exact (chunk_text_slices text max_length). Qed.

Lemma Forall_concat_is_word (groups : list (list str)) :
  Forall is_word (concat groups) -> Forall (Forall is_word) groups.
Proof.
  induction groups as [|g groups IH]; [constructor|].
  simpl. intros [? ?]%Forall_app. constructor; [done|]. by apply IH.
Qed.

(** When the first word fits the budget with its separator, splitting
    each window at its single spaces gives the words of the text as
    well. *)
Theorem chunk_text_split_space (text w : str) (rest : list str)
    (max_length : Z) :
  split text = w :: rest -> (len w + 1 <= max_length)%Z ->
  flat_map split_space (chunk_text text max_length) = split text.
Proof.
  intros Hsplit Hfit.
  destruct (chunk_text_slices text max_length)
    as (groups & -> & Hcat & _ & Hne).
  specialize (Hne w rest Hsplit Hfit).
  pose proof (split_is_word text) as Hwords. rewrite <- Hcat in Hwords |- *.
  apply Forall_concat_is_word in Hwords. clear Hcat Hsplit.
  induction groups as [|g groups IH]; [done|].
  apply Forall_cons in Hne as [Hg Hne]. apply Forall_cons in Hwords as [Hw Hwords].
  simpl. rewrite split_space_join by done. by rewrite IH.
Qed.

Lemma chunk_text_split_space_witness :
  flat_map split_space (chunk_text (lit "the quick brown fox") 10)
  = split (lit "the quick brown fox").
Proof.
  apply (chunk_text_split_space _ (lit "the")
           [lit "quick"; lit "brown"; lit "fox"]); [reflexivity|].
  vm_compute. discriminate.
Defined.

(** When the first word does not fit, the empty first window gives one
    empty piece more. *)
Example chunk_text_split_space_hello_3 :
  flat_map split_space (chunk_text (lit "hello") 3) = [[]; lit "hello"] /\
  split (lit "hello") = [lit "hello"].
Proof. split; reflexivity. Qed.

(** ** The aggregation *)

Lemma score_gt_true (a b : Q) : score_gt a b = true <-> (b < a)%Q.
Proof.
  unfold score_gt. rewrite negb_true_iff, <- not_true_iff_false, Qle_bool_iff.
  split; [apply Qnot_le_lt|apply Qlt_not_le].
Qed.

Lemma score_gt_false (a b : Q) : score_gt a b = false <-> (a <= b)%Q.
Proof. unfold score_gt. by rewrite negb_false_iff, Qle_bool_iff. Qed.

Lemma score_lt_true (a b : Q) : score_lt a b = true <-> (a < b)%Q.
Proof. apply score_gt_true. Qed.

Lemma score_lt_false (a b : Q) : score_lt a b = false <-> (b <= a)%Q.
Proof. apply score_gt_false. Qed.

Lemma best_of_cons (best r : QAResult) (results : list QAResult) :
  best_of best (r :: results) = best_of (keep_best best r) results.
Proof. done. Qed.

(** The scan keeps the first greatest candidate, the running best it
    starts from counted as the candidate before all others. *)
Lemma best_of_first_max (results : list QAResult) (best : QAResult) :
  exists i, first_max (best :: results) i (best_of best results).
Proof.
  revert best. induction results as [|r results IH]; intros best.
  - exists 0%nat. split_and!; [done| |intros; lia].
    intros [|j] x; simpl; [|done]. intros [= ->]. apply Qle_refl.
  - rewrite best_of_cons. unfold keep_best.
    destruct (score_gt (score r) (score best)) eqn:E.
    + apply score_gt_true in E.
      destruct (IH r) as (i & Hi & Hmax & Hfirst).
      exists (S i). split_and!; [done| |].
      * intros [|j] x; simpl; [|by apply Hmax].
        intros [= <-]. apply Qlt_le_weak.
        eapply Qlt_le_trans; [exact E|]. by apply (Hmax 0%nat).
      * intros [|j] x Hj; simpl.
        -- intros [= <-]. eapply Qlt_le_trans; [exact E|]. by apply (Hmax 0%nat).
        -- apply Hfirst. lia.
    + apply score_gt_false in E.
      destruct (IH best) as (i & Hi & Hmax & Hfirst).
      destruct i as [|i].
      * exists 0%nat. simpl in Hi. injection Hi as Hi.
        split_and!; [by rewrite <- Hi| |intros; lia].
        intros [|[|j]] x; simpl.
        -- intros [= <-]. rewrite <- Hi. apply Qle_refl.
        -- intros [= <-]. by rewrite <- Hi.
        -- intros Hx. by apply (Hmax (S j)).
      * exists (S (S i)). split_and!; [done| |].
        -- intros [|[|j]] x; simpl.
           ++ intros [= <-]. by apply (Hmax 0%nat).
           ++ intros [= <-]. eapply Qle_trans; [exact E|]. by apply (Hmax 0%nat).
           ++ intros Hx. by apply (Hmax (S j)).
        -- intros [|[|j]] x Hj; simpl.
           ++ intros [= <-]. apply (Hfirst 0%nat); [lia|done].
           ++ intros [= <-]. eapply Qle_lt_trans; [exact E|].
              apply (Hfirst 0%nat); [lia|done].
           ++ intros Hx. apply (Hfirst (S j)); [lia|done].
Qed.

(** When a window has a confidence above the initial 0, the scan keeps a
    window: the first of the greatest confidence. *)
Lemma best_of_first_max_window (results : list QAResult) :
  (exists r, r ∈ results /\ (0 < score r)%Q) ->
  exists i, first_max results i (best_of initial_best results).
Proof.
  intros (r & Hr & Hpos).
  destruct (best_of_first_max results initial_best) as (i & Hi & Hmax & Hfirst).
  apply list_elem_of_lookup in Hr as [k Hk].
  destruct i as [|i].
  - exfalso. simpl in Hi. injection Hi as Hi.
    pose proof (Hmax (S k) r Hk) as Hle. rewrite <- Hi in Hle. simpl in Hle.
    by apply Qlt_not_le in Hpos.
  - exists i. split_and!; [done| |].
    + intros j x Hx. by apply (Hmax (S j)).
    + intros j x Hj Hx. apply (Hfirst (S j)); [lia|done].
Qed.

Lemma keep_best_mono (best best' r r' : QAResult) :
  (score best' <= score best)%Q -> (score r' <= score r)%Q ->
  (score (keep_best best' r') <= score (keep_best best r))%Q.
Proof.
  intros Hb Hr. unfold keep_best.
  destruct (score_gt (score r') (score best')) eqn:E';
    destruct (score_gt (score r) (score best)) eqn:E; try done.
  - apply score_gt_false in E. by eapply Qle_trans.
  - apply score_gt_true in E. eapply Qle_trans; [exact Hb|]. by apply Qlt_le_weak.
Qed.

(** Lowering confidences, each in its place, lowers the final score or
    leaves it. *)
Lemma best_of_mono (results results' : list QAResult) (best best' : QAResult) :
  Forall2 (fun r r' => (score r' <= score r)%Q) results results' ->
  (score best' <= score best)%Q ->
  (score (best_of best' results') <= score (best_of best results))%Q.
Proof.
  intros H. revert best best'.
  induction H as [|r r' results results' Hr _ IH]; intros best best' Hb; [done|].
  rewrite !best_of_cons. apply IH. by apply keep_best_mono.
Qed.

(** ** The question-answering flow *)

Lemma last_n_all {A} (n : nat) (l : list A) :
  (length l <= n)%nat -> last_n n l = l.
Proof. intros H. unfold last_n. by replace (length l - n)%nat with 0%nat by lia. Qed.

Lemma last_n_length {A} (n : nat) (l : list A) :
  length (last_n n l) = Nat.min n (length l).
Proof. unfold last_n. rewrite length_drop. lia. Qed.

(** The history after the append and the truncation of [ask_question]. *)
Lemma truncate_last_n (h : list QARecord) :
  (if (HISTORY_CAP <? length h)%nat then last_n HISTORY_CAP h else h)
  = last_n HISTORY_CAP h.
Proof.
  destruct (HISTORY_CAP <? length h)%nat eqn:E; [done|].
  apply Nat.ltb_ge in E. by rewrite last_n_all.
Qed.

(** Cutting to the last [n] after each append is cutting once at the end. *)
Lemma last_n_app_last_n {A} (n : nat) (a b : list A) :
  last_n n (last_n n a ++ b) = last_n n (a ++ b).
Proof.
  unfold last_n. rewrite !length_app, length_drop.
  destruct (decide (length a <= n)%nat) as [Hle|Hgt].
  - replace (length a - n)%nat with 0%nat by lia. simpl.
    by rewrite Nat.sub_0_r.
  - replace (length a - (length a - n) + length b - n)%nat
      with (length b) by lia.
    rewrite !drop_app, !drop_drop, !length_drop.
    replace (length b - (length a - (length a - n)))%nat
      with (length b - n)%nat by lia.
    replace (length a + length b - n - length a)%nat
      with (length b - n)%nat by lia.
    f_equal. f_equal. lia.
Qed.

Lemma alter_alter_set_history (sessions : gmap str Session) (sid : str)
    (sess : Session) (h h' : list QARecord) :
  sessions !! sid = Some sess ->
  alter (set_history h') sid (alter (set_history h) sid sessions)
  = <[sid := set_history h' sess]> sessions.
Proof.
  intros Hsid. apply map_eq. intros k.
  destruct (decide (k = sid)) as [->|Hne].
  - rewrite lookup_alter_eq, lookup_alter_eq, lookup_insert_eq, Hsid. done.
  - by rewrite !lookup_alter_ne, lookup_insert_ne.
Qed.

Section AskProperties.

Variable qa_pipeline : str -> str -> Exception + QAResult.

(** When the collaborator answers on every window, the loop of
    [ask_question] is the scan of its answers. *)
Lemma scan_chunks_results (q : str) (chunks : list str)
    (results : list QAResult) (best : QAResult) :
  Forall2 (fun chunk r => qa_pipeline q chunk = inr r) chunks results ->
  scan_chunks qa_pipeline q best chunks = inr (best_of best results).
Proof.
  intros H. revert best.
  induction H as [|chunk r chunks results Hr _ IH]; intros best; [done|].
  simpl. rewrite Hr. apply IH.
Qed.

(** The loop returns a candidate only when the collaborator answered on
    every window. *)
Lemma scan_chunks_inr (q : str) (chunks : list str) (best b : QAResult) :
  scan_chunks qa_pipeline q best chunks = inr b ->
  exists results,
    Forall2 (fun chunk r => qa_pipeline q chunk = inr r) chunks results /\
    b = best_of best results.
Proof.
  revert best. induction chunks as [|chunk chunks IH]; intros best; simpl.
  - intros [= <-]. exists []. split; [constructor|done].
  - destruct (qa_pipeline q chunk) as [e|r] eqn:E; [done|].
    intros (results & Hres & ->)%IH. exists (r :: results).
    split; [by constructor|done].
Qed.

(** The [try] block, when the collaborator answered on every window. *)
Lemma ask_try_ok (sessions : gmap str Session) (sid : str) (sess : Session)
    (q now : str) (results : list QAResult) :
  sessions !! sid = Some sess ->
  Forall2 (fun chunk r => qa_pipeline q chunk = inr r)
    (chunk_text (document_text sess) DEFAULT_MAX_LENGTH) results ->
  let answer := final_answer (best_of initial_best results) in
  let history :=
    last_n HISTORY_CAP (conversation_history sess ++ [record_of q now answer]) in
  ask_try qa_pipeline sessions sid sess q now
  = (inr {| resp_answer := answer; resp_history := history |},
     <[sid := set_history history sess]> sessions).
Proof.
  intros Hsid Hres. unfold ask_try.
  rewrite (scan_chunks_results _ _ _ _ Hres). cbv zeta.
  rewrite truncate_last_n.
  by rewrite (alter_alter_set_history _ _ sess) by done.
Qed.

(** The [try] block, when the collaborator raised on some window. *)
Lemma ask_try_raise (sessions : gmap str Session) (sid : str) (sess : Session)
    (q now : str) (e : Exception) :
  scan_chunks qa_pipeline q initial_best
    (chunk_text (document_text sess) DEFAULT_MAX_LENGTH) = inl e ->
  ask_try qa_pipeline sessions sid sess q now = (inl e, sessions).
Proof. intros H. unfold ask_try. by rewrite H. Qed.

(** The two ways [ask_question] ends: an error and the store as it was,
    or an answer, its record appended and the history cut to the cap. *)
Lemma ask_question_cases (sessions : gmap str Session) (q : Question)
    (now : str) :
  (exists e, ask_question qa_pipeline sessions q now = (inl e, sessions)) \/
  (exists sid sess answer,
     session_id q = Some sid /\ sid <> [] /\ sessions !! sid = Some sess /\
     document_text sess <> [] /\ strip (question q) <> [] /\
     let history :=
       last_n HISTORY_CAP
         (conversation_history sess ++ [record_of (question q) now answer]) in
     ask_question qa_pipeline sessions q now
     = (inr {| resp_answer := answer; resp_history := history |},
        <[sid := set_history history sess]> sessions)).
Proof.
  unfold ask_question.
  destruct (session_id q) as [sid|] eqn:Hq; [|left; eauto].
  destruct (is_empty sid) eqn:Hne; [left; eauto|].
  destruct (sessions !! sid) as [sess|] eqn:Hsid; [|left; eauto].
  destruct (is_empty (document_text sess)) eqn:Hdoc; [left; eauto|].
  destruct (is_empty (strip (question q))) eqn:Hstrip; [left; eauto|].
  apply is_empty_false in Hne, Hdoc, Hstrip.
  destruct (scan_chunks qa_pipeline (question q) initial_best
              (chunk_text (document_text sess) DEFAULT_MAX_LENGTH))
    as [e|best] eqn:Hscan.
  - rewrite (ask_try_raise _ _ _ _ _ e) by done. left; eauto.
  - apply scan_chunks_inr in Hscan as (results & Hres & ->).
    rewrite (ask_try_ok _ _ _ _ _ results) by done.
    right. exists sid, sess, (final_answer (best_of initial_best results)).
    by split_and!.
Qed.

(** [ask_question] when the three checks pass and the collaborator answers
    on every window. *)
Lemma ask_question_ok (sessions : gmap str Session) (sid : str)
    (sess : Session) (q now : str) (results : list QAResult) :
  sid <> [] -> sessions !! sid = Some sess ->
  document_text sess <> [] -> strip q <> [] ->
  Forall2 (fun chunk r => qa_pipeline q chunk = inr r)
    (chunk_text (document_text sess) DEFAULT_MAX_LENGTH) results ->
  let answer := final_answer (best_of initial_best results) in
  let history :=
    last_n HISTORY_CAP (conversation_history sess ++ [record_of q now answer]) in
  ask_question qa_pipeline sessions {| question := q; session_id := Some sid |} now
  = (inr {| resp_answer := answer; resp_history := history |},
     <[sid := set_history history sess]> sessions).
Proof.
  intros Hne%is_empty_false Hsid Hdoc%is_empty_false Hq%is_empty_false Hres.
  unfold ask_question. simpl. rewrite Hne, Hsid, Hdoc, Hq.
  by rewrite (ask_try_ok _ _ _ _ _ results).
Qed.

(** In the stores of the service, a session id is a UUID string and a
    history is within the cap. *)
Lemma reachable_inv (sessions : gmap str Session) :
  reachable qa_pipeline sessions ->
  forall sid sess, sessions !! sid = Some sess ->
    uuid_string sid /\
    (length (conversation_history sess) <= HISTORY_CAP)%nat.
Proof.
  induction 1 as [|sessions filename uuid pages _ IH Huuid
                  |sessions q now _ IH]; intros sid sess.
  - by rewrite lookup_empty.
  - unfold upload_pdf.
    destruct (negb _); [by apply IH|].
    destruct pages as [e|pages]; [by apply IH|]. simpl.
    destruct (decide (uuid = sid)) as [->|Hne].
    + rewrite lookup_insert_eq. intros [= <-]. split; [done|]. simpl.
      unfold HISTORY_CAP. lia.
    + rewrite lookup_insert_ne by done. apply IH.
  - destruct (ask_question_cases sessions q now)
      as [[e ->]|(sid' & sess' & a & _ & _ & Hsid' & _ & _ & ->)];
      [by apply IH|]. simpl.
    destruct (decide (sid' = sid)) as [->|Hne].
    + rewrite lookup_insert_eq. intros [= <-]. split; [by eapply IH|]. simpl.
      rewrite last_n_length. lia.
    + rewrite lookup_insert_ne by done. apply IH.
Qed.

Lemma reachable_no_empty_id (sessions : gmap str Session) :
  reachable qa_pipeline sessions -> sessions !! ([] : str) = None.
Proof.
  intros H. destruct (sessions !! ([] : str)) as [sess|] eqn:E; [|done].
  by destruct (reachable_inv sessions H [] sess E) as [? _].
Qed.

Lemma reachable_ask_all (sessions : gmap str Session) (sid : str)
    (asks : list (str * str)) :
  reachable qa_pipeline sessions ->
  reachable qa_pipeline (ask_all qa_pipeline sessions sid asks).2.
Proof.
  revert sessions. induction asks as [|[q now] asks IH]; intros sessions H; [done|].
  simpl.
  pose proof (reachable_ask qa_pipeline sessions
                {| question := q; session_id := Some sid |} now H) as H1.
  destruct (ask_question _ _ _ _) as [r s1]. simpl in H1.
  specialize (IH s1 H1). by destruct (ask_all _ s1 sid asks).
Qed.

Lemma ask_all_cons (sessions : gmap str Session) (sid q now : str)
    (asks : list (str * str)) :
  ask_all qa_pipeline sessions sid ((q, now) :: asks)
  = let p := ask_question qa_pipeline sessions
               {| question := q; session_id := Some sid |} now in
    let p' := ask_all qa_pipeline p.2 sid asks in
    (p.1 :: p'.1, p'.2).
Proof.
  simpl. destruct (ask_question _ _ _ _) as [r s1]. simpl.
  by destruct (ask_all _ s1 sid asks).
Qed.

Lemma set_history_id (sess : Session) :
  set_history (conversation_history sess) sess = sess.
Proof. by destruct sess. Qed.

(** After a run of asks that all succeeded, the session holds the last
    [HISTORY_CAP] of its old records and the new ones, in order, and the
    last response carries the same history. *)
Lemma ask_all_history (sid : str) (asks : list (str * str)) :
  forall (sessions : gmap str Session) (sess : Session)
    (responses : list AskResponse),
  sessions !! sid = Some sess ->
  (length (conversation_history sess) <= HISTORY_CAP)%nat ->
  (ask_all qa_pipeline sessions sid asks).1 = map inr responses ->
  let history :=
    last_n HISTORY_CAP (conversation_history sess ++ records_of asks responses) in
  (ask_all qa_pipeline sessions sid asks).2 !! sid
    = Some (set_history history sess) /\
  (forall r, last responses = Some r -> resp_history r = history).
Proof.
  induction asks as [|[q now] asks IH]; intros sessions sess responses Hsid Hlen Hok.
  - destruct responses; [|done]. simpl. rewrite app_nil_r.
    rewrite last_n_all by done. by rewrite set_history_id.
  - rewrite ask_all_cons in Hok |- *. cbv zeta in Hok |- *. simpl in Hok |- *.
    destruct responses as [|resp responses]; [done|].
    simpl in Hok. injection Hok as Hresp Hrest.
    destruct (ask_question_cases sessions
                {| question := q; session_id := Some sid |} now)
      as [[e He]|(sid' & sess' & a & Hq & _ & Hsid' & _ & _ & Heq)].
    { rewrite He in Hresp. done. }
    simpl in Hq. injection Hq as <-.
    rewrite Hsid in Hsid'. injection Hsid' as <-.
    rewrite Heq in Hresp, Hrest |- *. simpl in Hresp, Hrest |- *.
    injection Hresp as <-.
    set (h1 := last_n HISTORY_CAP
                 (conversation_history sess ++ [record_of q now a])) in *.
    destruct (IH (<[sid := set_history h1 sess]> sessions)
                (set_history h1 sess) responses) as [IH1 IH2];
      [apply lookup_insert_eq| |exact Hrest|].
    { simpl. subst h1. rewrite last_n_length. lia. }
    subst h1.
    simpl in IH1, IH2. rewrite last_n_app_last_n in IH1, IH2.
    rewrite <- app_assoc in IH1, IH2. simpl in IH1, IH2.
    split; [done|].
    intros r Hr. destruct responses as [|resp' responses].
    + simpl in Hr. injection Hr as <-. simpl.
      destruct asks; simpl; by rewrite ?app_nil_r.
    + apply IH2. done.
Qed.

(** C6: a session of a store of the service, and a run of asks of it that
    all succeeded. After the run every history of the store is within the
    cap of 50; the session holds the last 50 of its old records and the
    new ones, in their order, the oldest gone first, and the last response
    carries that history. After 55 asks of a session with no record yet,
    the records of the last 50 asks remain, the first 5 dropped. *)
Theorem history_cap (sessions : gmap str Session) (sid : str) (sess : Session)
    (asks : list (str * str)) (responses : list AskResponse) :
  reachable qa_pipeline sessions ->
  sessions !! sid = Some sess ->
  (ask_all qa_pipeline sessions sid asks).1 = map inr responses ->
  let after := (ask_all qa_pipeline sessions sid asks).2 in
  let records := records_of asks responses in
  let history := last_n HISTORY_CAP (conversation_history sess ++ records) in
  (forall sid' sess', after !! sid' = Some sess' ->
     (length (conversation_history sess') <= HISTORY_CAP)%nat) /\
  after !! sid = Some (set_history history sess) /\
  (forall r, last responses = Some r -> resp_history r = history) /\
  history = drop (length (conversation_history sess ++ records) - 50)
              (conversation_history sess ++ records) /\
  (conversation_history sess = [] -> length asks = 55%nat ->
   history = drop 5 records /\ length history = 50%nat).
Proof.
  intros Hreach Hsid Hok after records history.
  destruct (reachable_inv sessions Hreach sid sess Hsid) as [_ Hlen].
  destruct (ask_all_history sid asks sessions sess responses Hsid Hlen Hok)
    as [Hafter Hlast].
  split_and!; [|done|done|done|].
  - intros sid' sess' H'.
    by destruct (reachable_inv after (reachable_ask_all sessions sid asks Hreach)
                   sid' sess' H').
  - intros Hnil Hasks. subst history. rewrite Hnil. simpl.
    assert (length records = 55%nat) as Hrec.
    { subst records. unfold records_of. rewrite length_zip_with.
      apply (f_equal length) in Hok. rewrite length_map in Hok.
      rewrite <- Hok. clear -Hasks.
      assert (length (ask_all qa_pipeline sessions sid asks).1 = length asks)
        as ->; [|lia].
      clear. revert sessions. induction asks as [|[q now] asks IH];
        intros sessions; [done|].
      rewrite ask_all_cons. simpl. by rewrite IH. }
    unfold last_n, HISTORY_CAP. rewrite Hrec. simpl Nat.sub.
    split; [done|]. rewrite length_drop. lia.
Qed.

(** C4: an ask that passes the three checks, of a collaborator that
    answers on every window. When every window's confidence is below
    0.1, the answer is the sentinel, whatever the candidates' texts; when
    some window's confidence is at least 0.1, the answer is the text of
    the best candidate, the first window of the greatest confidence. *)
Theorem relevance_threshold (sessions : gmap str Session) (sid : str)
    (sess : Session) (q now : str) (results : list QAResult) :
  sid <> [] -> sessions !! sid = Some sess ->
  document_text sess <> [] -> strip q <> [] ->
  Forall2 (fun chunk r => qa_pipeline q chunk = inr r)
    (chunk_text (document_text sess) DEFAULT_MAX_LENGTH) results ->
  exists response sessions',
    ask_question qa_pipeline sessions
      {| question := q; session_id := Some sid |} now
    = (inr response, sessions') /\
    ((forall r, r ∈ results -> (score r < THRESHOLD)%Q) ->
     resp_answer response = NO_ANSWER) /\
    ((exists r, r ∈ results /\ (THRESHOLD <= score r)%Q) ->
     exists i best, first_max results i best /\
       resp_answer response = answer best).
Proof.
  intros Hne Hsid Hdoc Hq Hres.
  eexists _, _. split; [by apply (ask_question_ok sessions sid sess q now results)|].
  simpl. unfold final_answer. split.
  - intros Hlow.
    destruct (best_of_first_max results initial_best) as (i & Hi & _).
    assert (score (best_of initial_best results) < THRESHOLD)%Q as Hb.
    { destruct i as [|i]; simpl in Hi.
      - injection Hi as <-. done.
      - apply Hlow. by eapply list_elem_of_lookup_2. }
    apply score_lt_true in Hb. by rewrite Hb.
  - intros (r & Hr & Hhigh).
    destruct (best_of_first_max_window results) as (i & Hi & Hmax & Hfirst).
    { exists r. split; [done|]. eapply Qlt_le_trans; [|exact Hhigh]. done. }
    exists i, (best_of initial_best results). split; [done|].
    apply list_elem_of_lookup in Hr as [k Hk].
    assert (THRESHOLD <= score (best_of initial_best results))%Q as Hb.
    { eapply Qle_trans; [exact Hhigh|]. by eapply Hmax. }
    apply score_lt_false in Hb. by rewrite Hb.
Qed.

(** C7: in a store of the service, [ask_question] fails with
    [SessionNotFound] exactly when the request has no session id or the
    id is not in the store. For an id in the store, it fails with
    [EmptyDocument] when the document text is empty, whatever the
    question; with [EmptyQuestion] when the text is not empty and the
    question stripped of whitespace is; and otherwise it runs the [try]
    block, and ends with its response or its exception as an error of
    status 500. *)
Theorem ask_question_checks (sessions : gmap str Session) (q : Question)
    (now : str) :
  reachable qa_pipeline sessions ->
  ((ask_question qa_pipeline sessions q now).1 = inl SessionNotFound <->
   session_id q = None \/
   exists sid, session_id q = Some sid /\ sessions !! sid = None) /\
  (forall sid sess,
     session_id q = Some sid -> sessions !! sid = Some sess ->
     (document_text sess = [] ->
      ask_question qa_pipeline sessions q now = (inl EmptyDocument, sessions)) /\
     (document_text sess <> [] -> strip (question q) = [] ->
      ask_question qa_pipeline sessions q now = (inl EmptyQuestion, sessions)) /\
     (document_text sess <> [] -> strip (question q) <> [] ->
      ask_question qa_pipeline sessions q now
      = (match (ask_try qa_pipeline sessions sid sess (question q) now).1 with
         | inl e => inl (ProcessingError e)
         | inr response => inr response
         end,
         (ask_try qa_pipeline sessions sid sess (question q) now).2))).
Proof.
  intros Hreach. pose proof (reachable_no_empty_id sessions Hreach) as Hnil.
  assert (forall sid sess, sessions !! sid = Some sess -> is_empty sid = false)
    as Hids.
  { intros [|c sid] sess H; [congruence|done]. }
  split.
  - unfold ask_question. destruct (session_id q) as [sid|]; [|by split; eauto].
    destruct (sessions !! sid) as [sess|] eqn:Hsid.
    + rewrite (Hids sid sess Hsid). split.
      * destruct (is_empty (document_text sess)); [done|].
        destruct (is_empty (strip (question q))); [done|].
        destruct (ask_try _ _ _ _ _ _) as [[e|r] s]; done.
      * intros [|(sid' & [= <-] & ?)]; congruence.
    + split; [|by destruct (is_empty sid)].
      intros _. right. by exists sid.
  - intros sid sess Hq Hsid. unfold ask_question.
    rewrite Hq, (Hids sid sess Hsid), Hsid. split_and!.
    + by intros ->.
    + intros ->%is_empty_false ->. done.
    + intros ->%is_empty_false ->%is_empty_false.
      by destruct (ask_try _ _ _ _ _ _) as [[e|r] s].
Qed.

(** C9: whenever [ask_question] fails, on one of its checks or on an
    exception of the collaborator, the store after it is the store before
    it: no record appended, no session changed. The same holds of
    [upload_pdf]. *)
Theorem failure_leaves_store (sessions : gmap str Session) :
  (forall (q : Question) (now : str) (e : HTTPException),
     (ask_question qa_pipeline sessions q now).1 = inl e ->
     (ask_question qa_pipeline sessions q now).2 = sessions) /\
  (forall (filename uuid : str) (pages : Exception + list str)
     (e : HTTPException),
     (upload_pdf sessions filename uuid pages).1 = inl e ->
     (upload_pdf sessions filename uuid pages).2 = sessions).
Proof.
  split.
  - intros q now e.
    destruct (ask_question_cases sessions q now)
      as [[e' ->]|(sid & sess & a & _ & _ & _ & _ & _ & ->)]; done.
  - intros filename uuid pages e. unfold upload_pdf.
    destruct (negb _); [done|]. by destruct pages.
Qed.

(** C10: a session of a store of the service whose document text is not
    empty and is all whitespace, and a question that is not blank. The
    windower gives no window, the collaborator is not called, and
    [ask_question] does not fail: it answers with the sentinel, and the
    session in the store after it holds the old records and then the
    record of the sentinel, cut to the last 50, under the same document;
    the response carries the same history. *)
Theorem ask_question_blank_document (sessions : gmap str Session) (sid : str)
    (sess : Session) (q now : str) :
  reachable qa_pipeline sessions ->
  sessions !! sid = Some sess ->
  document_text sess <> [] ->
  forallb isspace (document_text sess) = true ->
  strip q <> [] ->
  let record :=
    {| rec_question := q; rec_answer := NO_ANSWER; rec_timestamp := now |} in
  let history :=
    drop (length (conversation_history sess ++ [record]) - 50)
      (conversation_history sess ++ [record]) in
  let result :=
    ask_question qa_pipeline sessions
      {| question := q; session_id := Some sid |} now in
  chunk_text (document_text sess) DEFAULT_MAX_LENGTH = [] /\
  scan_chunks qa_pipeline q initial_best
    (chunk_text (document_text sess) DEFAULT_MAX_LENGTH) = inr initial_best /\
  result.1 = inr {| resp_answer := NO_ANSWER; resp_history := history |} /\
  result.2 !! sid
  = Some {| document_text := document_text sess;
            conversation_history := history |} /\
  (forall sid', sid' <> sid -> result.2 !! sid' = sessions !! sid') /\
  last history = Some record /\
  (length history <= 50)%nat /\
  ((length (conversation_history sess) < 50)%nat ->
   history = conversation_history sess ++ [record]).
Proof.
  intros Hreach Hsid Hdoc Hblank Hq record history result.
  assert (chunk_text (document_text sess) DEFAULT_MAX_LENGTH = []) as Hchunks.
  { unfold chunk_text, split. by rewrite split_from_blank. }
  assert (sid <> []) as Hne.
  { intros ->. rewrite (reachable_no_empty_id sessions Hreach) in Hsid. done. }
  destruct (reachable_inv sessions Hreach sid sess Hsid) as [_ Hlen].
  unfold HISTORY_CAP in Hlen.
  assert (result
          = (inr {| resp_answer := NO_ANSWER; resp_history := history |},
             <[sid := {| document_text := document_text sess;
                         conversation_history := history |}]> sessions))
    as Hresult.
  { subst result.
    rewrite (ask_question_ok sessions sid sess q now []); [done..|].
    rewrite Hchunks. constructor. }
  rewrite Hresult. simpl.
  split_and!.
  - done.
  - by rewrite Hchunks.
  - done.
  - apply lookup_insert_eq.
  - intros sid' Hsid'. by rewrite lookup_insert_ne.
  - subst history. rewrite length_app. simpl. rewrite drop_app, last_app.
    replace (length (conversation_history sess) + 1 - 50
             - length (conversation_history sess))%nat with 0%nat by lia.
    done.
  - subst history. rewrite length_drop, length_app. simpl. lia.
  - intros Hlt. subst history. rewrite length_app. simpl.
    by replace (length (conversation_history sess) + 1 - 50)%nat
      with 0%nat by lia.
Qed.

End AskProperties.

(** C5, amended: a scan of a collaborator that answers on every window.
    It keeps the first candidate of the greatest confidence, the initial
    running best of confidence 0 standing before the first window: ties
    go to the earlier one. So when some window has a confidence above 0,
    the scan keeps the candidate of the first window that attains the
    greatest confidence. And it is monotonic: a collaborator that differs
    on one window only, by a lower confidence there, gives a final score
    that is not greater. *)
Theorem aggregation_first_max_monotone
    (qa_pipeline : str -> str -> Exception + QAResult)
    (q : str) (chunks : list str) (results : list QAResult) :
  Forall2 (fun chunk r => qa_pipeline q chunk = inr r) chunks results ->
  exists best,
    scan_chunks qa_pipeline q initial_best chunks = inr best /\
    (exists i, first_max (initial_best :: results) i best) /\
    ((exists r, r ∈ results /\ (0 < score r)%Q) ->
     exists i, first_max results i best) /\
    (forall (qa_pipeline' : str -> str -> Exception + QAResult)
       (i : nat) (r r' : QAResult),
       results !! i = Some r -> (score r' <= score r)%Q ->
       Forall2 (fun chunk x => qa_pipeline' q chunk = inr x)
         chunks (<[i := r']> results) ->
       exists best',
         scan_chunks qa_pipeline' q initial_best chunks = inr best' /\
         (score best' <= score best)%Q).
Proof.
  intros Hres. exists (best_of initial_best results). split_and!.
  - by apply scan_chunks_results.
  - apply best_of_first_max.
  - apply best_of_first_max_window.
  - intros qa' i r r' Hi Hle Hres'.
    exists (best_of initial_best (<[i := r']> results)).
    split; [by apply scan_chunks_results|].
    apply best_of_mono; [|apply Qle_refl].
    rewrite <- (list_insert_id results i r) at 1 by done.
    apply Forall2_insert; [|done].
    apply Forall_Forall2_diag, Forall_forall. intros x _. apply Qle_refl.
Qed.

(** ** Scenarios *)

Lemma example_store_eq :
  example_store = <[example_uuid := example_session]> ∅.
Proof. reflexivity. Qed.

Lemma example_store_reachable qa : reachable qa example_store.
Proof. apply reachable_upload; [apply reachable_start|reflexivity]. Qed.

Lemma example_store_lookup :
  example_store !! example_uuid = Some example_session.
Proof. rewrite example_store_eq. apply lookup_insert_eq. Qed.

Lemma blank_store_reachable qa : reachable qa blank_store.
Proof. apply reachable_upload; [apply reachable_start|reflexivity]. Qed.

Lemma blank_store_lookup : blank_store !! example_uuid = Some blank_session.
Proof.
  change blank_store with (<[example_uuid := blank_session]> (∅ : gmap str Session)).
  apply lookup_insert_eq.
Qed.

(** The end-to-end scenario of the specification: the answer is "Paris"
    and the history has one record. *)
Example scenario_paris :
  (ask_question paris_qa example_store
     {| question := example_question; session_id := Some example_uuid |}
     example_now).1
  = inr {| resp_answer := lit "Paris";
           resp_history :=
             [record_of example_question example_now (lit "Paris")] |}.
Proof. vm_compute. reflexivity. Qed.

Lemma relevance_threshold_witness :
  exists response sessions',
    ask_question paris_qa example_store
      {| question := example_question; session_id := Some example_uuid |}
      example_now
    = (inr response, sessions') /\
    ((forall r, r ∈ [{| answer := lit "Paris"; score := 95 # 100 |}] ->
        (score r < THRESHOLD)%Q) ->
     resp_answer response = NO_ANSWER) /\
    ((exists r, r ∈ [{| answer := lit "Paris"; score := 95 # 100 |}] /\
        (THRESHOLD <= score r)%Q) ->
     exists i best,
       first_max [{| answer := lit "Paris"; score := 95 # 100 |}] i best /\
       resp_answer response = answer best).
Proof.
  apply (relevance_threshold paris_qa example_store example_uuid
           example_session example_question example_now
           [{| answer := lit "Paris"; score := 95 # 100 |}]).
  - discriminate.
  - exact example_store_lookup.
  - discriminate.
  - vm_compute. discriminate.
  - vm_compute. constructor; [reflexivity|constructor].
Defined.

Lemma aggregation_first_max_monotone_witness :
  exists best,
    scan_chunks paris_qa example_question initial_best
      [lit "Rome is in Italy."; lit "Paris is in France."; lit "Paris"]
    = inr best /\ answer best = lit "Paris" /\ (score best == 95 # 100)%Q.
Proof.
  destruct (aggregation_first_max_monotone paris_qa example_question
              [lit "Rome is in Italy."; lit "Paris is in France."; lit "Paris"]
              [{| answer := []; score := 0 |};
               {| answer := lit "Paris"; score := 95 # 100 |};
               {| answer := lit "Paris"; score := 95 # 100 |}])
    as (best & Hscan & _).
  - repeat constructor.
  - exists best. split; [exact Hscan|].
    vm_compute in Hscan. injection Hscan as <-. split; reflexivity.
Defined.

(** C5 as stated fails when no window has a confidence above 0: on one
    window whose candidate is "Rome" with confidence 0, the scan keeps the
    initial running best, the empty answer, which is no window's
    candidate. *)
Lemma aggregation_zero_confidence :
  Forall2 (fun chunk r => zero_qa example_question chunk = inr r)
    [lit "Rome is in Italy."] [{| answer := lit "Rome"; score := 0 |}] /\
  scan_chunks zero_qa example_question initial_best [lit "Rome is in Italy."]
  = inr initial_best /\
  first_max [{| answer := lit "Rome"; score := 0 |}] 0
    {| answer := lit "Rome"; score := 0 |} /\
  ~ (exists i, first_max [{| answer := lit "Rome"; score := 0 |}] i initial_best).
Proof.
  split_and!.
  - repeat constructor.
  - reflexivity.
  - split_and!; [done| |intros; lia].
    intros [|j] r; simpl; [|done]. intros [= <-]. apply Qle_refl.
  - intros (i & Hi & _). destruct i as [|i]; simpl in Hi; discriminate.
Qed.

Lemma history_cap_witness :
  (ask_all paris_qa example_store example_uuid example_asks).2 !! example_uuid
  = Some (set_history (drop 5 (records_of example_asks example_responses))
            example_session) /\
  length (drop 5 (records_of example_asks example_responses)) = 50%nat.
Proof.
  destruct (history_cap paris_qa example_store example_uuid example_session
              example_asks example_responses (example_store_reachable _)
              example_store_lookup)
    as (_ & Hafter & _ & _ & H55).
  - vm_compute. reflexivity.
  - destruct (H55 eq_refl eq_refl) as [Hdrop Hlen].
    rewrite Hdrop in Hafter, Hlen. split; [exact Hafter|exact Hlen].
Defined.

Lemma ask_question_checks_witness :
  ask_question paris_qa example_store
    {| question := lit "   "; session_id := Some example_uuid |} example_now
  = (inl EmptyQuestion, example_store).
Proof.
  destruct (ask_question_checks paris_qa example_store
              {| question := lit "   "; session_id := Some example_uuid |}
              example_now (example_store_reachable _)) as [_ H].
  destruct (H example_uuid example_session eq_refl example_store_lookup)
    as (_ & Hq & _).
  apply Hq; [discriminate|reflexivity].
Defined.

Lemma failure_leaves_store_witness :
  (ask_question failing_qa example_store
     {| question := example_question; session_id := Some example_uuid |}
     example_now).1
  = inl (ProcessingError {| exn_str := lit "model failure" |}) /\
  (ask_question failing_qa example_store
     {| question := example_question; session_id := Some example_uuid |}
     example_now).2
  = example_store.
Proof.
  assert ((ask_question failing_qa example_store
             {| question := example_question; session_id := Some example_uuid |}
             example_now).1
          = inl (ProcessingError {| exn_str := lit "model failure" |})) as H.
  { vm_compute. reflexivity. }
  split; [exact H|].
  exact (proj1 (failure_leaves_store failing_qa example_store) _ _ _ H).
Defined.

Lemma ask_question_blank_document_witness :
  chunk_text blank_document DEFAULT_MAX_LENGTH = [] /\
  (ask_question failing_qa blank_store
     {| question := example_question; session_id := Some example_uuid |}
     example_now).1
  = inr {| resp_answer := NO_ANSWER;
           resp_history :=
             [{| rec_question := example_question; rec_answer := NO_ANSWER;
                 rec_timestamp := example_now |}] |} /\
  (ask_question failing_qa blank_store
     {| question := example_question; session_id := Some example_uuid |}
     example_now).2 !! example_uuid
  = Some {| document_text := blank_document;
            conversation_history :=
              [{| rec_question := example_question; rec_answer := NO_ANSWER;
                  rec_timestamp := example_now |}] |}.
Proof.
  destruct (ask_question_blank_document failing_qa blank_store example_uuid
              blank_session example_question example_now
              (blank_store_reachable _) blank_store_lookup)
    as (Hchunks & _ & Hresp & Hstore & _).
  - discriminate.
  - reflexivity.
  - vm_compute. discriminate.
  - split; [exact Hchunks|]. split; [exact Hresp|exact Hstore].
Defined.

(** * Further properties of the windower *)

Lemma weight_nonneg (ws : list str) : (0 <= weight ws)%Z.
Proof. induction ws as [|w ws IH]; simpl; unfold len; lia. Qed.

Lemma weight_elem (ws : list str) (w : str) :
  w ∈ ws -> (len w + 1 <= weight ws)%Z.
Proof.
  induction 1 as [w ws|w w' ws _ IH]; simpl.
  - pose proof (weight_nonneg ws). lia.
  - unfold len in *. lia.
Qed.

(** The loop of [chunk_text] closes the windows of [pack]. *)
Lemma chunk_loop_pack (m : Z) (words : list str) (st : chunk_state) :
  current_length st = weight (current_chunk st) ->
  chunks (chunk_loop m st words)
    ++ [join (current_chunk (chunk_loop m st words))]
  = chunks st ++ map join (pack m (current_chunk st) words).
Proof.
  revert st. induction words as [|w words IH]; intros st Hlen; [done|].
  rewrite chunk_loop_cons. unfold chunk_step. simpl pack. rewrite <- Hlen.
  destruct (current_length st + (len w + 1) >? m)%Z.
  - rewrite IH by (simpl; lia). simpl. by rewrite <- app_assoc.
  - rewrite IH; [done|]. simpl. rewrite weight_app, Hlen. simpl. lia.
Qed.

Lemma chunk_text_pack (text : str) (m : Z) :
  split text <> [] ->
  chunk_text text m = map join (pack m [] (split text)).
Proof.
  intros Hne. pose proof (split_is_word text) as Hwords.
  destruct (split text) as [|w rest] eqn:Hsplit; [done|].
  apply Forall_cons in Hwords as [Hw Hrest].
  assert (exists st, chunk_step m
            {| chunks := []; current_chunk := []; current_length := 0 |} w = st
          /\ current_chunk st = [w]) as (st1 & Hst1 & Hcur1).
  { eexists. split; [done|]. unfold chunk_step. simpl.
    by destruct (0 + (len w + 1) >? m)%Z. }
  unfold chunk_text. rewrite Hsplit.
  pose proof (chunk_loop_pack m (w :: rest)
                {| chunks := []; current_chunk := []; current_length := 0 |}
                eq_refl) as Hpack.
  change (map join (pack m [] (w :: rest)))
    with ([] ++ map join (pack m [] (w :: rest))).
  change ([] ++ map join (pack m [] (w :: rest)))
    with (chunks {| chunks := []; current_chunk := []; current_length := 0 |}
          ++ map join
               (pack m
                  (current_chunk
                     {| chunks := []; current_chunk := [];
                        current_length := 0 |}) (w :: rest))).
  rewrite <- Hpack. clear Hpack.
  rewrite chunk_loop_cons, Hst1.
  destruct (chunk_loop_nonempty m rest st1) as (_ & _ & _ & _ & _ & Hcur);
    [done|rewrite Hcur1; by constructor|by rewrite Hcur1|].
  unfold chunk_flush. by destruct (current_chunk (chunk_loop m st1 rest)).
Qed.

Lemma pack_concat (m : Z) (words cur : list str) :
  concat (pack m cur words) = cur ++ words.
Proof.
  revert cur. induction words as [|w words IH]; intros cur; simpl.
  - by rewrite !app_nil_r.
  - destruct (weight cur + (len w + 1) >? m)%Z; simpl; rewrite IH; [done|].
    by rewrite <- app_assoc.
Qed.

(** The first group of [pack] starts with the open window. *)
Lemma pack_head (m : Z) (words cur : list str) :
  exists more rest, pack m cur words = (cur ++ more) :: rest.
Proof.
  revert cur. induction words as [|w words IH]; intros cur; simpl.
  - exists [], []. by rewrite app_nil_r.
  - destruct (weight cur + (len w + 1) >? m)%Z.
    + exists [], (pack m [w] words). by rewrite app_nil_r.
    + destruct (IH (cur ++ [w])) as (more & rest & ->).
      exists (w :: more), rest. by rewrite <- app_assoc.
Qed.

(** A group is closed only when the next word would not fit. *)
Lemma pack_greedy (m : Z) (words cur : list str) (i : nat)
    (g rest : list str) (w : str) :
  pack m cur words !! i = Some g ->
  pack m cur words !! S i = Some (w :: rest) ->
  (m < weight g + (len w + 1))%Z.
Proof.
  revert cur i. induction words as [|w' words IH]; intros cur i; simpl.
  - by destruct i.
  - destruct (weight cur + (len w' + 1) >? m)%Z eqn:E; [|apply IH].
    destruct i as [|i]; simpl; [|apply IH].
    intros [= <-]. destruct (pack_head m words [w']) as (more & tl & ->).
    simpl. intros [= <- _]. lia.
Qed.

(** A group of two words or more is within the budget. *)
Lemma pack_fits (m : Z) (words cur g : list str) :
  ((2 <= length cur)%nat -> (weight cur <= m)%Z) ->
  g ∈ pack m cur words -> (2 <= length g)%nat -> (weight g <= m)%Z.
Proof.
  revert cur. induction words as [|w words IH]; intros cur Hcur; simpl.
  - intros ->%list_elem_of_singleton. done.
  - destruct (weight cur + (len w + 1) >? m)%Z eqn:E.
    + intros [->|Hg]%elem_of_cons; [done|].
      revert Hg. apply IH. simpl. lia.
    + apply IH. intros _. rewrite weight_app. simpl. lia.
Qed.

(** A word that does not fit the budget is alone in its group. *)
Lemma pack_long_alone (m : Z) (words cur g : list str) (w : str) :
  (forall x, x ∈ cur -> (m < len x + 1)%Z -> cur = [x]) ->
  g ∈ pack m cur words -> w ∈ g -> (m < len w + 1)%Z -> g = [w].
Proof.
  revert cur. induction words as [|w' words IH]; intros cur Hcur; simpl.
  - intros ->%list_elem_of_singleton. apply Hcur.
  - destruct (Z.gtb_spec (weight cur + (len w' + 1)) m) as [E|E].
    + intros [->|Hg]%elem_of_cons; [apply Hcur|].
      revert Hg. apply IH. intros x ->%list_elem_of_singleton. done.
    + apply IH. intros x Hx Hlong. exfalso.
      apply elem_of_app in Hx as [Hx|Hx%list_elem_of_singleton].
      * pose proof (weight_elem cur x Hx). unfold len in *. lia.
      * subst x. pose proof (weight_nonneg cur). lia.
Qed.

Lemma pack_all_fit (m : Z) (words cur : list str) :
  (weight (cur ++ words) <= m)%Z -> pack m cur words = [cur ++ words].
Proof.
  revert cur. induction words as [|w words IH]; intros cur; simpl.
  - by rewrite app_nil_r.
  - intros H. rewrite weight_app in H. simpl in H.
    pose proof (weight_nonneg words).
    destruct (weight cur + (len w + 1) >? m)%Z eqn:E; [lia|].
    rewrite IH; [by rewrite <- app_assoc|].
    rewrite !weight_app. simpl. lia.
Qed.

(** The words of a text and their separators take no more room than the
    text and one character. *)
Lemma weight_split_from (s acc : str) :
  (weight (split_from acc s) <= len acc + len s + 1)%Z.
Proof.
  revert acc. induction s as [|c s IH]; intros acc; simpl.
  - destruct acc; simpl; unfold len; simpl; lia.
  - destruct (isspace c).
    + specialize (IH []). destruct acc; simpl; unfold len in *; simpl in *; lia.
    + specialize (IH (acc ++ [c])). unfold len in *.
      rewrite length_app in IH. simpl in *. lia.
Qed.

(** The windows are packed greedily. They are slices of the words of the
    text, each joined with single spaces; a window of two words or more is
    strictly shorter than [max_length]; and a window is closed only when
    the next word, with its separator, would have taken the running
    length of the window over [max_length]. *)
Theorem chunk_text_greedy (text : str) (max_length : Z) :
  exists groups : list (list str),
    chunk_text text max_length = map join groups /\
    concat groups = split text /\
    (forall g, g ∈ groups -> (2 <= length g)%nat ->
       (len (join g) < max_length)%Z) /\
    (forall i g w rest,
       groups !! i = Some g -> groups !! S i = Some (w :: rest) ->
       (max_length < weight g + (len w + 1))%Z).
Proof.
  destruct (split text) as [|w0 rest0] eqn:Hsplit.
  { exists []. unfold chunk_text. rewrite Hsplit. split_and!; [done|done| |done].
    by intros g ?%elem_of_nil. }
  exists (pack max_length [] (split text)). split_and!.
  - apply chunk_text_pack. by rewrite Hsplit.
  - rewrite <- Hsplit. apply pack_concat.
  - intros g Hg Hlen.
    assert (weight g <= max_length)%Z as Hfit.
    { eapply pack_fits; [|exact Hg|exact Hlen]. simpl. lia. }
    rewrite len_join by (destruct g; [simpl in Hlen; lia|done]). lia.
  - intros i g w rest. apply pack_greedy.
Qed.

Lemma chunk_text_whole (text : str) (m : Z) :
  split text <> [] -> (len text < m)%Z ->
  chunk_text text m = [join (split text)].
Proof.
  intros Hne Hlen. rewrite chunk_text_pack by done.
  rewrite pack_all_fit; [done|]. simpl.
  pose proof (weight_split_from text []) as H. unfold split, len in *.
  simpl in H. lia.
Qed.

(** A text with a word in it that is shorter than [max_length] gives one
    window: its words joined with single spaces. *)
Theorem chunk_text_single_window (text : str) (max_length : Z) :
  split text <> [] -> (len text < max_length)%Z ->
  chunk_text text max_length = [join (split text)].
Proof. apply chunk_text_whole. Qed.

Lemma chunk_text_single_window_witness :
  chunk_text (lit "  Paris is" ++ 10%N :: lit " the  capital ") 30 = [lit "Paris is the capital"].
Proof.
  apply (chunk_text_single_window (lit "  Paris is" ++ 10%N :: lit " the  capital ") 30); [discriminate|reflexivity].
Defined.

(** A word that does not fit the budget with its separator is a window
    by itself, wherever it stands in the text. *)
Theorem chunk_text_long_word_alone (text w : str) (max_length : Z) :
  w ∈ split text -> (max_length < len w + 1)%Z ->
  exists groups : list (list str),
    chunk_text text max_length = map join groups /\
    concat groups = split text /\
    [w] ∈ groups /\
    (forall g, g ∈ groups -> w ∈ g -> g = [w]).
Proof.
  intros Hw Hlong.
  assert (split text <> []) as Hne by (intros H; rewrite H in Hw; by apply elem_of_nil in Hw).
  exists (pack max_length [] (split text)).
  assert (forall g, g ∈ pack max_length [] (split text) -> w ∈ g -> g = [w])
    as Halone.
  { intros g Hg Hwg. eapply pack_long_alone; [|exact Hg|exact Hwg|exact Hlong].
    by intros x ?%elem_of_nil. }
  split_and!; [by apply chunk_text_pack|apply pack_concat| |done].
  assert (w ∈ concat (pack max_length [] (split text))) as Hw'
    by (by rewrite pack_concat).
  apply list_elem_of_In, in_concat in Hw' as (g & Hg & Hwg).
  apply list_elem_of_In in Hg, Hwg.
  by rewrite <- (Halone g Hg Hwg).
Qed.

Lemma chunk_text_long_word_alone_witness :
  exists groups : list (list str),
    chunk_text (lit "a supercalifragilistic b c") 10 = map join groups /\
    concat groups = split (lit "a supercalifragilistic b c") /\
    [lit "supercalifragilistic"] ∈ groups /\
    (forall g, g ∈ groups -> lit "supercalifragilistic" ∈ g ->
       g = [lit "supercalifragilistic"]).
Proof.
  apply (chunk_text_long_word_alone (lit "a supercalifragilistic b c")
           (lit "supercalifragilistic") 10).
  - vm_compute. apply list_elem_of_In. simpl. tauto.
  - vm_compute. reflexivity.
Defined.

(** A window is in normal form: splitting it and joining its words again
    gives the window. Its words are one space apart, and it has no
    whitespace at either end, whatever the whitespace of the text was. *)
Theorem chunk_text_normalized (text c : str) (max_length : Z) :
  c ∈ chunk_text text max_length -> join (split c) = c.
Proof.
  destruct (chunk_text_slices text max_length) as (groups & -> & Hcat & _).
  pose proof (split_is_word text) as Hwords. rewrite <- Hcat in Hwords.
  apply Forall_concat_is_word in Hwords.
  intros (g & -> & Hg)%list_elem_of_fmap.
  rewrite Forall_forall in Hwords. by rewrite split_join by by apply Hwords.
Qed.

Lemma chunk_text_normalized_witness :
  join (split (lit "Paris is the capital")) = lit "Paris is the capital".
Proof.
  apply (chunk_text_normalized (lit "  Paris is" ++ 10%N :: lit " the  capital ") _ 30).
  vm_compute. apply list_elem_of_In. simpl. tauto.
Defined.

(** * Further properties of the flow and of the store *)

Lemma endswith_spec (s suffix : str) :
  endswith s suffix = true <-> exists stem, s = stem ++ suffix.
Proof.
  unfold endswith. rewrite bool_decide_eq_true. split.
  - intros H. exists (take (length s - length suffix) s).
    rewrite <- H at 2. by rewrite take_drop.
  - intros [stem ->]. rewrite length_app.
    by rewrite drop_app_length' by lia.
Qed.

(** [document_text += page.get_text()] over the pages. *)
Lemma fold_pages (pages : list str) (text : str) :
  fold_left (fun text page => text ++ page) pages text = text ++ concat pages.
Proof.
  revert text. induction pages as [|p pages IH]; intros text; simpl.
  - by rewrite app_nil_r.
  - rewrite IH. by rewrite <- app_assoc.
Qed.

Lemma split_from_app_ws (p b acc : str) (c : N) :
  isspace c = true ->
  split_from acc (p ++ c :: b) = split_from acc (p ++ [c]) ++ split b.
Proof.
  intros Hc. revert acc. induction p as [|x p IH]; intros acc; simpl.
  - rewrite Hc. by destruct acc.
  - destruct (isspace x); [|apply IH]. destruct acc; by rewrite IH.
Qed.

Lemma split_app_closed (a b : str) :
  page_closed a -> split (a ++ b) = split a ++ split b.
Proof.
  intros [->|(p & c & -> & Hc)]; [done|].
  unfold split at 1 2. rewrite <- app_assoc. simpl.
  by apply split_from_app_ws.
Qed.

Lemma split_concat_closed (pages : list str) :
  Forall page_closed pages -> split (concat pages) = flat_map split pages.
Proof.
  induction 1 as [|p pages Hp _ IH]; [done|].
  simpl. by rewrite split_app_closed, IH.
Qed.

(** The running best after a scan is one of the candidates, the initial
    one among them, and none has a greater confidence. *)
Lemma best_of_max (results : list QAResult) (best : QAResult) :
  best_of best results ∈ best :: results /\
  forall r, r ∈ best :: results -> (score r <= score (best_of best results))%Q.
Proof.
  destruct (best_of_first_max results best) as (i & Hi & Hmax & _). split.
  - by eapply list_elem_of_lookup_2.
  - intros r [j Hj]%list_elem_of_lookup. by eapply Hmax.
Qed.

Lemma final_answer_initial : final_answer initial_best = NO_ANSWER.
Proof. reflexivity. Qed.

(** The answer after one window. *)
Lemma final_answer_one (r : QAResult) :
  final_answer (best_of initial_best [r])
  = if score_lt (score r) THRESHOLD then NO_ANSWER else answer r.
Proof.
  unfold best_of. simpl. unfold keep_best.
  destruct (score_gt (score r) (score initial_best)) eqn:E; [done|].
  rewrite final_answer_initial. apply score_gt_false in E.
  assert (score r < THRESHOLD)%Q as H.
  { eapply Qle_lt_trans; [exact E|]. done. }
  apply score_lt_true in H. by rewrite H.
Qed.

Section FlowProperties.

Variable qa_pipeline : str -> str -> Exception + QAResult.

(** The scan stops at the first window the collaborator raises on. *)
Lemma scan_chunks_raise (q : str) (pre post : list str) (c : str)
    (results : list QAResult) (best : QAResult) (e : Exception) :
  Forall2 (fun chunk r => qa_pipeline q chunk = inr r) pre results ->
  qa_pipeline q c = inl e ->
  scan_chunks qa_pipeline q best (pre ++ c :: post) = inl e.
Proof.
  intros H Hc. revert best.
  induction H as [|chunk r pre results Hr _ IH]; intros best; simpl.
  - by rewrite Hc.
  - rewrite Hr. apply IH.
Qed.

Lemma scan_chunks_inl (q : str) (chunks : list str) (best : QAResult)
    (e : Exception) :
  scan_chunks qa_pipeline q best chunks = inl e ->
  exists pre c post results,
    chunks = pre ++ c :: post /\
    Forall2 (fun chunk r => qa_pipeline q chunk = inr r) pre results /\
    qa_pipeline q c = inl e.
Proof.
  revert best. induction chunks as [|chunk chunks IH]; intros best; simpl; [done|].
  destruct (qa_pipeline q chunk) as [e'|r] eqn:E.
  - intros [= ->]. exists [], chunk, chunks, []. split_and!; [done|constructor|done].
  - intros (pre & c & post & results & -> & Hpre & Hc)%IH.
    exists (chunk :: pre), c, post, (r :: results).
    split_and!; [done|by constructor|done].
Qed.

(** [ask_question] when the three checks pass and the collaborator raises
    on some window. *)
Lemma ask_question_raise (sessions : gmap str Session) (sid : str)
    (sess : Session) (q now : str) (e : Exception) :
  sid <> [] -> sessions !! sid = Some sess ->
  document_text sess <> [] -> strip q <> [] ->
  scan_chunks qa_pipeline q initial_best
    (chunk_text (document_text sess) DEFAULT_MAX_LENGTH) = inl e ->
  ask_question qa_pipeline sessions {| question := q; session_id := Some sid |} now
  = (inl (ProcessingError e), sessions).
Proof.
  intros Hne%is_empty_false Hsid Hdoc%is_empty_false Hq%is_empty_false Hscan.
  unfold ask_question. simpl. rewrite Hne, Hsid, Hdoc, Hq.
  by rewrite (ask_try_raise _ _ _ _ _ _ e).
Qed.

(** What is behind every outcome of [ask_question]. *)
Lemma ask_question_inv (sessions : gmap str Session) (q : Question)
    (now : str) :
  (exists e, ask_question qa_pipeline sessions q now = (inl e, sessions) /\
     status_code e = 400%Z) \/
  (exists sid sess,
     session_id q = Some sid /\ sid <> [] /\ sessions !! sid = Some sess /\
     document_text sess <> [] /\ strip (question q) <> [] /\
     ((exists e,
         scan_chunks qa_pipeline (question q) initial_best
           (chunk_text (document_text sess) DEFAULT_MAX_LENGTH) = inl e /\
         ask_question qa_pipeline sessions q now
         = (inl (ProcessingError e), sessions)) \/
      (exists results,
         Forall2 (fun chunk r => qa_pipeline (question q) chunk = inr r)
           (chunk_text (document_text sess) DEFAULT_MAX_LENGTH) results /\
         let answer := final_answer (best_of initial_best results) in
         let history :=
           last_n HISTORY_CAP
             (conversation_history sess
                ++ [record_of (question q) now answer]) in
         ask_question qa_pipeline sessions q now
         = (inr {| resp_answer := answer; resp_history := history |},
            <[sid := set_history history sess]> sessions)))).
Proof.
  destruct q as [qq [sid|]]; [|left; by eexists].
  destruct (decide (sid = [])) as [->|Hne]; [left; by eexists|].
  destruct (sessions !! sid) as [sess|] eqn:Hsid.
  2: { left. exists SessionNotFound. split; [|done].
       unfold ask_question. simpl. rewrite Hsid. by destruct (is_empty sid). }
  destruct (decide (document_text sess = [])) as [Hdoc|Hdoc].
  { left. exists EmptyDocument. split; [|done].
    unfold ask_question. simpl. rewrite Hsid, Hdoc.
    apply is_empty_false in Hne. by rewrite Hne. }
  destruct (decide (strip qq = [])) as [Hq|Hq].
  { left. exists EmptyQuestion. split; [|done].
    unfold ask_question. simpl. rewrite Hsid, Hq.
    apply is_empty_false in Hne, Hdoc. by rewrite Hne, Hdoc. }
  right. exists sid, sess. split_and!; try done. simpl.
  destruct (scan_chunks qa_pipeline qq initial_best
              (chunk_text (document_text sess) DEFAULT_MAX_LENGTH))
    as [e|best] eqn:Hscan.
  - left. exists e. split; [done|]. by apply (ask_question_raise _ _ sess).
  - right. apply scan_chunks_inr in Hscan as (results & Hres & ->).
    exists results. split; [done|].
    by apply (ask_question_ok qa_pipeline sessions sid sess qq now results).
Qed.

(** An answer of [ask_question] is the sentinel or the text of a
    candidate the collaborator gave on a window of the session's document,
    with a confidence of at least 0.1. The empty answer the scan starts
    from is never returned as such. *)
Theorem answer_provenance (sessions after : gmap str Session) (q : Question)
    (now : str) (response : AskResponse) :
  ask_question qa_pipeline sessions q now = (inr response, after) ->
  resp_answer response = NO_ANSWER \/
  exists sid sess chunk r,
    session_id q = Some sid /\ sessions !! sid = Some sess /\
    chunk ∈ chunk_text (document_text sess) DEFAULT_MAX_LENGTH /\
    qa_pipeline (question q) chunk = inr r /\
    resp_answer response = answer r /\ (THRESHOLD <= score r)%Q.
Proof.
  intros Hask.
  destruct (ask_question_inv sessions q now)
    as [(e & He & _)|(sid & sess & Hq & _ & Hsid & _ & _ &
                      [(e & _ & He)|(results & Hres & Hok)])];
    [congruence..|].
  cbv zeta in Hok. rewrite Hok in Hask. injection Hask as <- _. simpl.
  unfold final_answer.
  destruct (score_lt (score (best_of initial_best results)) THRESHOLD) eqn:E;
    [by left|right].
  apply score_lt_false in E.
  destruct (best_of_max results initial_best) as [Hin _].
  apply elem_of_cons in Hin as [Heq|Hin].
  { rewrite Heq in E. exfalso. revert E. by apply Qlt_not_le. }
  apply list_elem_of_lookup in Hin as [i Hi].
  destruct (Forall2_lookup_r _ _ _ _ _ Hres Hi) as (chunk & Hchunk & Hr).
  exists sid, sess, chunk, (best_of initial_best results).
  split_and!; try done. by eapply list_elem_of_lookup_2.
Qed.

(** When the three checks pass and the collaborator raises on a window,
    having answered on the windows before it, [ask_question] fails with
    the error of status 500 that carries the message of that exception,
    whatever the candidates so far and whatever the windows after it; and
    when the three checks pass, [ask_question] fails in no other way. *)
Theorem collaborator_failure (sessions : gmap str Session) (sid : str)
    (sess : Session) (q now : str) :
  sid <> [] -> sessions !! sid = Some sess ->
  document_text sess <> [] -> strip q <> [] ->
  (forall pre c post results e,
     chunk_text (document_text sess) DEFAULT_MAX_LENGTH = pre ++ c :: post ->
     Forall2 (fun chunk r => qa_pipeline q chunk = inr r) pre results ->
     qa_pipeline q c = inl e ->
     ask_question qa_pipeline sessions
       {| question := q; session_id := Some sid |} now
     = (inl {| status_code := 500;
               detail := lit "Error processing question: " ++ exn_str e |},
        sessions)) /\
  (forall err,
     (ask_question qa_pipeline sessions
        {| question := q; session_id := Some sid |} now).1 = inl err ->
     exists pre c post results e,
       chunk_text (document_text sess) DEFAULT_MAX_LENGTH = pre ++ c :: post /\
       Forall2 (fun chunk r => qa_pipeline q chunk = inr r) pre results /\
       qa_pipeline q c = inl e /\
       err = {| status_code := 500;
                detail := lit "Error processing question: " ++ exn_str e |}).
Proof.
  intros Hne Hsid Hdoc Hq. split.
  - intros pre c post results e Hchunks Hpre Hc.
    apply (ask_question_raise _ _ sess); try done.
    rewrite Hchunks. by eapply scan_chunks_raise.
  - intros err Herr.
    destruct (scan_chunks qa_pipeline q initial_best
                (chunk_text (document_text sess) DEFAULT_MAX_LENGTH))
      as [e|best] eqn:Hscan.
    + rewrite (ask_question_raise sessions sid sess q now e) in Herr by done.
      injection Herr as <-.
      apply scan_chunks_inl in Hscan as (pre & c & post & results & ? & ? & ?).
      by exists pre, c, post, results, e.
    + apply scan_chunks_inr in Hscan as (results & Hres & _).
      by rewrite (ask_question_ok qa_pipeline sessions sid sess q now results)
        in Herr by done.
Qed.

(** A document whose first word has [DEFAULT_MAX_LENGTH] characters or
    more: the first window of its text is empty, and the collaborator is
    asked about it before any other. With a collaborator that raises on
    an empty context, [ask_question] fails with status 500 on every
    question of such a document. *)
Theorem ask_question_empty_window (sessions : gmap str Session) (sid : str)
    (sess : Session) (q now w : str) (rest : list str) (e : Exception) :
  sid <> [] -> sessions !! sid = Some sess -> strip q <> [] ->
  split (document_text sess) = w :: rest ->
  (DEFAULT_MAX_LENGTH <= len w)%Z ->
  qa_pipeline q [] = inl e ->
  head (chunk_text (document_text sess) DEFAULT_MAX_LENGTH) = Some [] /\
  ask_question qa_pipeline sessions
    {| question := q; session_id := Some sid |} now
  = (inl (ProcessingError e), sessions).
Proof.
  intros Hne Hsid Hq Hsplit Hlong Hraise.
  assert (exists tl, chunk_text (document_text sess) DEFAULT_MAX_LENGTH = [] :: tl)
    as [tl Htl].
  { rewrite (chunk_text_cons _ w rest) by done.
    destruct (Z.gtb_spec (len w + 1) DEFAULT_MAX_LENGTH) as [_|?]; [|lia].
    pose proof (split_is_word (document_text sess)) as Hwords.
    rewrite Hsplit in Hwords. apply Forall_cons in Hwords as [Hw Hrest].
    destruct (chunk_run_nonempty DEFAULT_MAX_LENGTH rest
                {| chunks := [[]]; current_chunk := [w];
                   current_length := (len w + 1)%Z |})
      as (new & -> & _); [done|by constructor|done|].
    by exists new. }
  split; [by rewrite Htl|].
  apply (ask_question_raise _ _ sess); try done.
  - intros Hdoc. by rewrite Hdoc in Hsplit.
  - rewrite Htl. by apply (scan_chunks_raise q [] tl [] []); [constructor|].
Qed.

(** [ask_question] neither adds nor removes a session, changes no
    session but the one it is asked of, and never changes a document. *)
Theorem ask_question_frame (sessions : gmap str Session) (q : Question)
    (now : str) :
  dom (ask_question qa_pipeline sessions q now).2 = dom sessions /\
  forall sid sess, sessions !! sid = Some sess ->
    exists sess',
      (ask_question qa_pipeline sessions q now).2 !! sid = Some sess' /\
      document_text sess' = document_text sess /\
      (session_id q <> Some sid -> sess' = sess).
Proof.
  destruct (ask_question_cases qa_pipeline sessions q now)
    as [[e ->]|(sid0 & sess0 & a & Hq & _ & Hsid0 & _ & _ & ->)]; simpl.
  - split; [done|]. intros sid sess Hsid. by exists sess.
  - split; [by apply dom_insert_lookup_L|].
    intros sid sess Hsid. destruct (decide (sid0 = sid)) as [->|Hne].
    + rewrite lookup_insert_eq. eexists. split; [done|].
      rewrite Hsid in Hsid0. injection Hsid0 as <-. split; [done|].
      by rewrite Hq.
    + rewrite lookup_insert_ne by done. by exists sess.
Qed.

(** In the stores of the service, every recorded question has a
    character that is not whitespace, and a session with a record has a
    document that is not empty. *)
Theorem reachable_records (sessions : gmap str Session) (sid : str)
    (sess : Session) :
  reachable qa_pipeline sessions -> sessions !! sid = Some sess ->
  (conversation_history sess <> [] -> document_text sess <> []) /\
  Forall (fun r => strip (rec_question r) <> []) (conversation_history sess).
Proof.
  intros H. revert sid sess.
  induction H as [|sessions filename uuid pages _ IH Huuid
                  |sessions q now _ IH]; intros sid sess.
  - by rewrite lookup_empty.
  - unfold upload_pdf.
    destruct (negb _); [by apply IH|].
    destruct pages as [e|pages]; [by apply IH|]. simpl.
    destruct (decide (uuid = sid)) as [->|Hne].
    + rewrite lookup_insert_eq. intros [= <-]. done.
    + rewrite lookup_insert_ne by done. apply IH.
  - destruct (ask_question_cases qa_pipeline sessions q now)
      as [[e ->]|(sid' & sess' & a & _ & _ & Hsid' & Hdoc & Hq & ->)];
      [by apply IH|]. simpl.
    destruct (decide (sid' = sid)) as [->|Hne].
    + rewrite lookup_insert_eq. intros [= <-]. split; [done|]. simpl.
      unfold last_n. apply Forall_drop, Forall_app. split.
      * by eapply IH.
      * by constructor.
    + rewrite lookup_insert_ne by done. apply IH.
Qed.

(** A run of asks of one session, answered or not: after it the session
    holds the last [HISTORY_CAP] of its old records and the records of
    the asks that were answered, in order. A failed ask leaves no
    record. *)
Lemma ask_all_answered_from (sid : str) (asks : list (str * str)) :
  forall (sessions : gmap str Session) (sess : Session),
  sessions !! sid = Some sess ->
  (length (conversation_history sess) <= HISTORY_CAP)%nat ->
  (ask_all qa_pipeline sessions sid asks).2 !! sid
  = Some (set_history
            (last_n HISTORY_CAP
               (conversation_history sess
                  ++ answered_records asks
                       (ask_all qa_pipeline sessions sid asks).1)) sess).
Proof.
  induction asks as [|[q now] asks IH]; intros sessions sess Hsid Hlen.
  - simpl. unfold answered_records. simpl. rewrite app_nil_r.
    rewrite last_n_all by done. by rewrite set_history_id.
  - rewrite ask_all_cons. cbv zeta. simpl.
    destruct (ask_question_cases qa_pipeline sessions
                {| question := q; session_id := Some sid |} now)
      as [[e He]|(sid' & sess' & a & Hq & _ & Hsid' & _ & _ & Heq)].
    + rewrite He. simpl. rewrite (IH sessions sess) by done.
      unfold answered_records. simpl. done.
    + simpl in Hq. injection Hq as <-.
      rewrite Hsid in Hsid'. injection Hsid' as <-.
      rewrite Heq. simpl.
      set (h1 := last_n HISTORY_CAP
                   (conversation_history sess ++ [record_of q now a])).
      rewrite (IH (<[sid := set_history h1 sess]> sessions)
                 (set_history h1 sess)).
      * simpl. subst h1. rewrite last_n_app_last_n.
        unfold answered_records. simpl. by rewrite <- app_assoc.
      * apply lookup_insert_eq.
      * simpl. subst h1. rewrite last_n_length. lia.
Qed.

End FlowProperties.

(** A run of asks of one session of a store of the service, answered or
    not: after it the session in the store has its document as it was,
    and its history is the last 50 of its old records and the records of
    the asks that were answered, in order. A failed ask leaves no record,
    and takes no place in the history. *)
Theorem ask_all_answered
    (qa_pipeline : str -> str -> Exception + QAResult)
    (sessions : gmap str Session) (sid : str) (sess : Session)
    (asks : list (str * str)) :
  reachable qa_pipeline sessions -> sessions !! sid = Some sess ->
  let results := (ask_all qa_pipeline sessions sid asks).1 in
  let after := (ask_all qa_pipeline sessions sid asks).2 in
  let records := conversation_history sess ++ answered_records asks results in
  exists sess',
    after !! sid = Some sess' /\
    document_text sess' = document_text sess /\
    conversation_history sess' = drop (length records - 50) records /\
    (length (conversation_history sess') <= 50)%nat /\
    ((length records <= 50)%nat -> conversation_history sess' = records).
Proof.
  intros Hreach Hsid results after records.
  destruct (reachable_inv qa_pipeline sessions Hreach sid sess Hsid)
    as [_ Hlen].
  pose proof (ask_all_answered_from qa_pipeline sid asks sessions sess
                Hsid Hlen) as Hafter.
  fold results after in Hafter. fold records in Hafter.
  eexists. split; [exact Hafter|]. simpl. split_and!.
  - done.
  - done.
  - rewrite last_n_length. unfold HISTORY_CAP. lia.
  - intros Hle. by apply last_n_all.
Qed.

(** A document shorter than [DEFAULT_MAX_LENGTH] with a word in it is
    one window, its words joined with single spaces: the collaborator is
    asked once, about that window. Its exception is the error of the
    ask, and the store stays as it was. Otherwise its candidate is the
    answer when its confidence is at least 0.1, and the sentinel is the
    answer when it is below; and the session in the store after the ask
    holds its old records and then the record of the answer, cut to the
    last 50, under the same document, every other session as it was. *)
Theorem ask_question_short_document
    (qa_pipeline : str -> str -> Exception + QAResult)
    (sessions : gmap str Session) (sid : str) (sess : Session) (q now : str) :
  sid <> [] -> sessions !! sid = Some sess -> strip q <> [] ->
  split (document_text sess) <> [] ->
  (len (document_text sess) < DEFAULT_MAX_LENGTH)%Z ->
  let result :=
    ask_question qa_pipeline sessions
      {| question := q; session_id := Some sid |} now in
  match qa_pipeline q (join (split (document_text sess))) with
  | inl e =>
      result
      = (inl {| status_code := 500;
                detail := lit "Error processing question: " ++ exn_str e |},
         sessions)
  | inr r =>
      let answer :=
        if score_lt (score r) THRESHOLD then NO_ANSWER else answer r in
      let record :=
        {| rec_question := q; rec_answer := answer; rec_timestamp := now |} in
      let history :=
        drop (length (conversation_history sess ++ [record]) - 50)
          (conversation_history sess ++ [record]) in
      result.1 = inr {| resp_answer := answer; resp_history := history |} /\
      result.2 !! sid
      = Some {| document_text := document_text sess;
                conversation_history := history |} /\
      (forall sid', sid' <> sid -> result.2 !! sid' = sessions !! sid') /\
      ((length (conversation_history sess) < 50)%nat ->
       history = conversation_history sess ++ [record])
  end.
Proof.
  intros Hne Hsid Hq Hwords Hlen result.
  assert (document_text sess <> []) as Hdoc.
  { intros H. by rewrite H in Hwords. }
  pose proof (chunk_text_whole _ _ Hwords Hlen) as Hchunks.
  destruct (qa_pipeline q (join (split (document_text sess)))) as [e|r] eqn:E.
  - subst result. apply (ask_question_raise _ _ _ sess); try done.
    rewrite Hchunks. simpl. by rewrite E.
  - intros answer0 record history.
    assert (result
            = (inr {| resp_answer := answer0; resp_history := history |},
               <[sid := {| document_text := document_text sess;
                           conversation_history := history |}]> sessions))
      as ->.
    { subst result.
      rewrite (ask_question_ok qa_pipeline sessions sid sess q now [r]);
        try done.
      - cbv zeta. by rewrite final_answer_one.
      - rewrite Hchunks. by repeat constructor. }
    simpl. split_and!.
    + done.
    + apply lookup_insert_eq.
    + intros sid' Hsid'. by rewrite lookup_insert_ne.
    + intros Hlt. subst history. rewrite length_app. simpl.
      by replace (length (conversation_history sess) + 1 - 50)%nat
        with 0%nat by lia.
Qed.

(** A successful [upload_pdf] on the store. *)
Lemma upload_pdf_pages (sessions : gmap str Session) (stem uuid : str)
    (ps : list str) :
  (upload_pdf sessions (stem ++ lit ".pdf") uuid (inr ps)).2 !! uuid
  = Some {| document_text := concat ps; conversation_history := [] |} /\
  (upload_pdf sessions (stem ++ lit ".pdf") uuid (inr ps)).2
  = <[uuid := {| document_text := concat ps; conversation_history := [] |}]>
      sessions.
Proof.
  unfold upload_pdf.
  assert (endswith (stem ++ lit ".pdf") (lit ".pdf") = true) as ->
    by (apply endswith_spec; by exists stem).
  simpl. rewrite fold_pages. simpl. by rewrite lookup_insert_eq.
Qed.

(** [upload_pdf]. A file whose name does not end with ".pdf", in these
    very characters, is refused before anything is read; an exception
    while reading is the error of status 500 with its message; and in
    both cases the store is as it was. Otherwise the session stored
    under the new id holds the texts of the pages one after the other
    and no record, and every other session is as it was. *)
Theorem upload_pdf_outcomes (sessions : gmap str Session)
    (filename uuid : str) (pages : Exception + list str) :
  ((~ exists stem, filename = stem ++ lit ".pdf") ->
   upload_pdf sessions filename uuid pages = (inl UnsupportedFormat, sessions)) /\
  (forall stem e, filename = stem ++ lit ".pdf" -> pages = inl e ->
   upload_pdf sessions filename uuid pages
   = (inl {| status_code := 500;
             detail := lit "Error processing PDF: " ++ exn_str e |},
      sessions)) /\
  (forall stem ps, filename = stem ++ lit ".pdf" -> pages = inr ps ->
   exists response,
     (upload_pdf sessions filename uuid pages).1 = inr response /\
     up_session_id response = uuid /\ up_history response = [] /\
     (upload_pdf sessions filename uuid pages).2 !! uuid
     = Some {| document_text := concat ps; conversation_history := [] |} /\
     forall sid, sid <> uuid ->
       (upload_pdf sessions filename uuid pages).2 !! sid = sessions !! sid).
Proof.
  unfold upload_pdf. split_and!.
  - intros Hno. destruct (endswith filename (lit ".pdf")) eqn:E; [|done].
    by apply endswith_spec in E.
  - intros stem e -> ->.
    assert (endswith (stem ++ lit ".pdf") (lit ".pdf") = true) as ->
      by (apply endswith_spec; by exists stem).
    done.
  - intros stem ps -> ->.
    assert (endswith (stem ++ lit ".pdf") (lit ".pdf") = true) as ->
      by (apply endswith_spec; by exists stem).
    simpl. eexists. split_and!; [done|done|done| |].
    + rewrite lookup_insert_eq, fold_pages. done.
    + intros sid Hsid. by rewrite lookup_insert_ne.
Qed.

(** When every page is empty or ends with whitespace, the words of the
    stored document are the words of the pages, page after page: no word
    of a page runs into the next page. *)
Theorem upload_keeps_words (sessions : gmap str Session) (stem uuid : str)
    (ps : list str) :
  Forall page_closed ps ->
  exists sess,
    (upload_pdf sessions (stem ++ lit ".pdf") uuid (inr ps)).2 !! uuid
    = Some sess /\
    document_text sess = concat ps /\
    split (document_text sess) = flat_map split ps.
Proof.
  intros Hps.
  destruct (upload_pdf_pages sessions stem uuid ps) as [Hlookup _].
  eexists. split; [exact Hlookup|]. split; [done|].
  by apply split_concat_closed.
Qed.

(** The first ask of a session after its upload. When no page had any
    text, the upload succeeded all the same and the ask fails with
    [EmptyDocument], leaving the store as it is, so that every later ask
    of the session fails alike. Otherwise an answered ask leaves a
    history of one record, the one of that ask, in the response and in
    the store. *)
Theorem first_ask_after_upload
    (qa_pipeline : str -> str -> Exception + QAResult)
    (sessions : gmap str Session) (stem uuid : str) (ps : list str)
    (q now : str) :
  uuid_string uuid ->
  let after := (upload_pdf sessions (stem ++ lit ".pdf") uuid (inr ps)).2 in
  (concat ps = [] ->
   ask_question qa_pipeline after {| question := q; session_id := Some uuid |} now
   = (inl EmptyDocument, after)) /\
  (forall response after',
     ask_question qa_pipeline after
       {| question := q; session_id := Some uuid |} now
     = (inr response, after') ->
     resp_history response = [record_of q now (resp_answer response)] /\
     after' !! uuid
     = Some {| document_text := concat ps;
               conversation_history := resp_history response |}).
Proof.
  intros Huuid after.
  destruct (upload_pdf_pages sessions stem uuid ps) as [Hlookup _].
  fold after in Hlookup.
  assert (is_empty uuid = false) as Hne by (by destruct uuid).
  split.
  - intros Hempty. unfold ask_question. simpl.
    by rewrite Hne, Hlookup, Hempty.
  - intros response after' Hask.
    destruct (ask_question_inv qa_pipeline after
                {| question := q; session_id := Some uuid |} now)
      as [(e & He & _)|(sid & sess & Hq & _ & Hsid & _ & _ &
                        [(e & _ & He)|(results & _ & Hok)])];
      [congruence..|].
    simpl in Hq. injection Hq as <-. rewrite Hlookup in Hsid.
    injection Hsid as <-. cbv zeta in Hok. simpl in Hok.
    rewrite Hok in Hask. injection Hask as <- <-. simpl.
    split; [done|]. by rewrite lookup_insert_eq.
Qed.

(** The final score of a scan does not depend on the order of the
    windows: two scans of the same windows in two orders, the
    collaborator answering on each, end with the same confidence. The
    order decides between candidates of equal confidence only. *)
Theorem best_score_permutation
    (qa_pipeline : str -> str -> Exception + QAResult)
    (q : str) (chunks chunks' : list str) (best best' : QAResult) :
  chunks ≡ₚ chunks' ->
  scan_chunks qa_pipeline q initial_best chunks = inr best ->
  scan_chunks qa_pipeline q initial_best chunks' = inr best' ->
  (score best == score best')%Q.
Proof.
  intros Hperm (results & Hres & ->)%scan_chunks_inr
    (results' & Hres' & ->)%scan_chunks_inr.
  assert (forall cs cs' rs rs',
            cs ≡ₚ cs' ->
            Forall2 (fun chunk r => qa_pipeline q chunk = inr r) cs rs ->
            Forall2 (fun chunk r => qa_pipeline q chunk = inr r) cs' rs' ->
            (score (best_of initial_best rs)
             <= score (best_of initial_best rs'))%Q) as Hle.
  { intros cs cs' rs rs' Hp H H'.
    destruct (best_of_max rs initial_best) as [Hin _].
    destruct (best_of_max rs' initial_best) as [_ Hmax].
    apply Hmax. apply elem_of_cons in Hin as [->|Hin]; [by left|right].
    apply list_elem_of_lookup in Hin as [i Hi].
    destruct (Forall2_lookup_r _ _ _ _ _ H Hi) as (chunk & Hchunk & Hr).
    apply list_elem_of_lookup_2 in Hchunk. rewrite Hp in Hchunk.
    apply list_elem_of_lookup in Hchunk as [j Hj].
    destruct (Forall2_lookup_l _ _ _ _ _ H' Hj) as (r' & Hr' & Hq').
    rewrite Hr in Hq'. injection Hq' as ->.
    by eapply list_elem_of_lookup_2. }
  apply Qle_antisym; [by eapply Hle|]. eapply Hle; [|done|done].
  by symmetry.
Qed.

(** ** Scenarios of the further properties *)

Lemma long_word_store_lookup :
  long_word_store !! example_uuid
  = Some {| document_text := long_word_document; conversation_history := [] |}.
Proof.
  change long_word_store
    with (<[example_uuid := {| document_text := long_word_document;
                               conversation_history := [] |}]>
            (∅ : gmap str Session)).
  apply lookup_insert_eq.
Qed.

(** Two pages that do not end with whitespace: the last word of the
    first runs into the first word of the second. *)
Example upload_merges_words :
  (upload_pdf ∅ (lit "two.pdf") example_uuid
     (inr [lit "first page"; lit "second page"])).2 !! example_uuid
  = Some {| document_text := lit "first pagesecond page";
            conversation_history := [] |} /\
  split (lit "first pagesecond page")
  = [lit "first"; lit "pagesecond"; lit "page"].
Proof. split; [|reflexivity]. vm_compute. reflexivity. Qed.

Lemma answer_provenance_witness :
  lit "Paris" = NO_ANSWER \/
  exists sid sess chunk r,
    Some example_uuid = Some sid /\ example_store !! sid = Some sess /\
    chunk ∈ chunk_text (document_text sess) DEFAULT_MAX_LENGTH /\
    paris_qa example_question chunk = inr r /\
    lit "Paris" = answer r /\ (THRESHOLD <= score r)%Q.
Proof.
  apply (answer_provenance paris_qa example_store
           (ask_question paris_qa example_store
              {| question := example_question;
                 session_id := Some example_uuid |} example_now).2
           {| question := example_question; session_id := Some example_uuid |}
           example_now
           {| resp_answer := lit "Paris";
              resp_history :=
                [record_of example_question example_now (lit "Paris")] |}).
  vm_compute. reflexivity.
Defined.

Lemma collaborator_failure_witness :
  ask_question failing_qa example_store
    {| question := example_question; session_id := Some example_uuid |}
    example_now
  = (inl {| status_code := 500;
            detail := lit "Error processing question: model failure" |},
     example_store).
Proof.
  apply (proj1 (collaborator_failure failing_qa example_store example_uuid
                  example_session example_question example_now
                  ltac:(discriminate) example_store_lookup
                  ltac:(discriminate) ltac:(vm_compute; discriminate))
           [] (join (split example_document)) [] []
           {| exn_str := lit "model failure" |}).
  - vm_compute. reflexivity.
  - constructor.
  - reflexivity.
Defined.

Lemma ask_question_empty_window_witness :
  head (chunk_text long_word_document DEFAULT_MAX_LENGTH) = Some [] /\
  ask_question strict_qa long_word_store
    {| question := example_question; session_id := Some example_uuid |}
    example_now
  = (inl (ProcessingError {| exn_str := lit "context cannot be empty" |}),
     long_word_store).
Proof.
  apply (ask_question_empty_window strict_qa long_word_store example_uuid
           {| document_text := long_word_document; conversation_history := [] |}
           example_question example_now (replicate 512 97%N)
           [lit "is"; lit "long"]).
  - discriminate.
  - exact long_word_store_lookup.
  - vm_compute. discriminate.
  - vm_compute. reflexivity.
  - vm_compute. discriminate.
  - reflexivity.
Defined.

Lemma reachable_records_witness :
  (conversation_history
     (set_history [record_of example_question example_now (lit "Paris")]
        example_session) <> [] ->
   document_text
     (set_history [record_of example_question example_now (lit "Paris")]
        example_session) <> []) /\
  Forall (fun r => strip (rec_question r) <> [])
    (conversation_history
       (set_history [record_of example_question example_now (lit "Paris")]
          example_session)).
Proof.
  apply (reachable_records paris_qa
           (ask_question paris_qa example_store
              {| question := example_question;
                 session_id := Some example_uuid |} example_now).2
           example_uuid).
  - apply reachable_ask, example_store_reachable.
  - vm_compute. reflexivity.
Defined.

Lemma ask_all_answered_witness :
  exists sess',
    (ask_all paris_qa example_store example_uuid
       [(lit "   ", lit "t1"); (example_question, lit "t2")]).2 !! example_uuid
    = Some sess' /\
    document_text sess' = example_document /\
    conversation_history sess'
    = [{| rec_question := example_question; rec_answer := lit "Paris";
          rec_timestamp := lit "t2" |}].
Proof.
  destruct (ask_all_answered paris_qa example_store example_uuid example_session
              [(lit "   ", lit "t1"); (example_question, lit "t2")]
              (example_store_reachable _) example_store_lookup)
    as (sess' & Hafter & Hdoc & Hhist & _).
  exists sess'. split; [exact Hafter|]. split; [exact Hdoc|].
  rewrite Hhist. vm_compute. reflexivity.
Defined.

Lemma ask_question_short_document_witness :
  (ask_question paris_qa example_store
     {| question := example_question; session_id := Some example_uuid |}
     example_now).1
  = inr {| resp_answer := lit "Paris";
           resp_history :=
             [{| rec_question := example_question; rec_answer := lit "Paris";
                 rec_timestamp := example_now |}] |} /\
  (ask_question paris_qa example_store
     {| question := example_question; session_id := Some example_uuid |}
     example_now).2 !! example_uuid
  = Some {| document_text := example_document;
            conversation_history :=
              [{| rec_question := example_question; rec_answer := lit "Paris";
                  rec_timestamp := example_now |}] |}.
Proof.
  pose proof (ask_question_short_document paris_qa example_store example_uuid
                example_session example_question example_now
                ltac:(discriminate) example_store_lookup
                ltac:(vm_compute; discriminate) ltac:(vm_compute; discriminate)
                eq_refl) as H.
  cbv zeta in H.
  change (paris_qa example_question (join (split (document_text example_session))))
    with (inr {| answer := lit "Paris"; score := 95 # 100 |}
            : Exception + QAResult) in H.
  destruct H as (Hresp & Hstore & _). split; [exact Hresp|exact Hstore].
Defined.

Lemma upload_keeps_words_witness :
  exists sess,
    (upload_pdf ∅ (lit "two" ++ lit ".pdf") example_uuid
       (inr [(lit "first page" ++ [10%N]); (lit "second page" ++ [10%N])])).2 !! example_uuid = Some sess /\
    document_text sess = concat [(lit "first page" ++ [10%N]); (lit "second page" ++ [10%N])] /\
    split (document_text sess)
    = flat_map split [(lit "first page" ++ [10%N]); (lit "second page" ++ [10%N])].
Proof.
  apply (upload_keeps_words ∅ (lit "two") example_uuid).
  constructor; [|constructor; [|constructor]]; right.
  - exists (lit "first page"), 10%N. split; reflexivity.
  - exists (lit "second page"), 10%N. split; reflexivity.
Defined.

Lemma first_ask_after_upload_witness :
  ask_question paris_qa
    (upload_pdf ∅ (lit "scan" ++ lit ".pdf") example_uuid (inr [[]; []])).2
    {| question := example_question; session_id := Some example_uuid |}
    example_now
  = (inl EmptyDocument,
     (upload_pdf ∅ (lit "scan" ++ lit ".pdf") example_uuid (inr [[]; []])).2).
Proof.
  apply (proj1 (first_ask_after_upload paris_qa ∅ (lit "scan") example_uuid
                  [[]; []] example_question example_now eq_refl)).
  reflexivity.
Defined.

Lemma best_score_permutation_witness :
  (95 # 100 == 95 # 100)%Q.
Proof.
  apply (best_score_permutation paris_qa example_question
           [lit "Rome is in Italy."; lit "Paris is in France."]
           [lit "Paris is in France."; lit "Rome is in Italy."]
           {| answer := lit "Paris"; score := 95 # 100 |}
           {| answer := lit "Paris"; score := 95 # 100 |}).
  - apply Permutation_swap.
  - reflexivity.
  - reflexivity.
Defined.

Lemma chunk_text_greedy_witness :
  exists groups : list (list str),
    chunk_text (lit "the quick brown fox jumps") 10 = map join groups /\
    concat groups = split (lit "the quick brown fox jumps") /\
    (forall g, g ∈ groups -> (2 <= length g)%nat -> (len (join g) < 10)%Z) /\
    (forall i g w rest,
       groups !! i = Some g -> groups !! S i = Some (w :: rest) ->
       (10 < weight g + (len w + 1))%Z).
Proof. exact (chunk_text_greedy (lit "the quick brown fox jumps") 10). Defined.

Lemma ask_question_frame_witness :
  dom (ask_question paris_qa example_store
         {| question := example_question; session_id := Some example_uuid |}
         example_now).2 = dom example_store /\
  forall sid sess, example_store !! sid = Some sess ->
    exists sess',
      (ask_question paris_qa example_store
         {| question := example_question; session_id := Some example_uuid |}
         example_now).2 !! sid = Some sess' /\
      document_text sess' = document_text sess /\
      (Some example_uuid <> Some sid -> sess' = sess).
Proof.
  exact (ask_question_frame paris_qa example_store
           {| question := example_question; session_id := Some example_uuid |}
           example_now).
Defined.

(** The test of the name is on its very characters: ".PDF" is refused. *)
Lemma upload_pdf_outcomes_witness :
  upload_pdf example_store (lit "report.PDF") example_uuid (inr [[]])
  = (inl UnsupportedFormat, example_store).
Proof.
  apply (proj1 (upload_pdf_outcomes example_store (lit "report.PDF")
                  example_uuid (inr [[]]))).
  intros [stem Hstem].
  assert (endswith (lit "report.PDF") (lit ".pdf") = true) as H
    by (apply endswith_spec; by exists stem).
  discriminate H.
Defined.
